(** * macula: the Merkle Patricia Trie proof-trace engine

    A shallow embedding of [macula/mpt_proof_trace.py] (path codec, read
    engine, write engine, mode dispatcher) together with the parts of
    [macula/step.py] the engine touches, and the properties of the
    natural-language specification stated over it.

    Conventions.
    - A Python call either returns a value or raises; this is the [result]
      type.  A function body that runs off its end returns Python's [None],
      which is [Returns None] for the step-producing functions.
    - [bytes] are lists of [Byte.byte]; Python integers are [Z].
    - [uint256] follows the fixed-width integer of the container library the
      source imports: the constructor rejects values outside [0, 2^256), a
      left shift clips to 256 bits, a subtraction below zero is rejected.
    - [rlp_decode_list], [rlp_encode_list] and [mpt_hash] are external
      primitives (their bodies in the source are TODO stubs); the engine is
      parameterised by them. *)

From Stdlib Require Import ZArith List Bool Lia.
From Stdlib.Strings Require Import Byte.
Import ListNotations.
Open Scope Z_scope.

(** ** Outcomes of Python calls *)

Inductive exn : Type :=
| AssertionError
| ValueError
| OverflowError
| IndexError
| KeyError
| UnboundLocalError
| NotImplementedError.

Inductive result (A : Type) : Type :=
| Returns (a : A)
| Raises (e : exn).

Arguments Returns {A} a.
Arguments Raises {A} e.

Definition bind {A B : Type} (c : result A) (k : A -> result B) : result B :=
  match c with
  | Returns a => k a
  | Raises e => Raises e
  end.

Notation "x <- c ;; k" := (bind c (fun x => k))
  (at level 61, c at next level, right associativity).
Notation "' pat <- c ;; k" := (bind c (fun x => match x with pat => k end))
  (at level 61, pat pattern, c at next level, right associativity).

(** [assert cond] *)
Definition assert (cond : bool) : result unit :=
  if cond then Returns tt else Raises AssertionError.

(** ** Python [bytes] and [int] primitives used by the source *)

Definition bytes : Type := list byte.

Definition byte_val (b : byte) : Z := Z.of_N (Byte.to_N b).

Definition byte_of_Z (z : Z) : byte :=
  match Byte.of_N (Z.to_N z) with
  | Some b => b
  | None => x00
  end.

Definition byte_eqb (a b : byte) : bool := Byte.eqb a b.

Fixpoint bytes_eqb (a b : bytes) : bool :=
  match a, b with
  | [], [] => true
  | x :: a', y :: b' => byte_eqb x y && bytes_eqb a' b'
  | _, _ => false
  end.

(** [len(b)] *)
Definition len {A : Type} (l : list A) : Z := Z.of_nat (length l).

(** [int.from_bytes(b, byteorder='big')] *)
Definition int_from_bytes (b : bytes) : Z :=
  fold_left (fun acc x => acc * 256 + byte_val x) b 0.

(** [b.ljust(width)]: pads on the right up to [width]; the fill byte is not
    given by the source, so it is Python's default, the ASCII space 0x20. *)
Definition ljust (b : bytes) (width : nat) : bytes :=
  b ++ repeat x20 (width - length b).

Fixpoint le_bytes (v : Z) (n : nat) : bytes :=
  match n with
  | O => []
  | S k => byte_of_Z (v mod 256) :: le_bytes (v / 256) k
  end.

(** [v.to_bytes(length=n, byteorder='big')] *)
Definition int_to_bytes (v : Z) (n : Z) : result bytes :=
  if n <? 0 then Raises ValueError
  else if v <? 0 then Raises OverflowError
  else if 256 ^ n <=? v then Raises OverflowError
  else Returns (rev (le_bytes v (Z.to_nat n))).

(** [int(b)] for a [bytes] object [b]: Python parses [b] as a base-10
    literal (surrounding ASCII whitespace, an optional sign, digits with
    single underscores between them) and raises [ValueError] otherwise. *)
Definition is_space (b : byte) : bool :=
  let v := byte_val b in ((9 <=? v) && (v <=? 13)) || (v =? 32).

Definition is_digit (b : byte) : bool :=
  let v := byte_val b in (48 <=? v) && (v <=? 57).

Fixpoint drop_spaces (b : bytes) : bytes :=
  match b with
  | x :: r => if is_space x then drop_spaces r else b
  | [] => []
  end.

Fixpoint parse_digits (b : bytes) (acc : Z) (after_digit : bool) : option Z :=
  match b with
  | [] => if after_digit then Some acc else None
  | x :: r =>
      if is_digit x then parse_digits r (acc * 10 + (byte_val x - 48)) true
      else if (byte_val x =? 95) && after_digit then parse_digits r acc false
      else None
  end.

Definition int_of_bytes (b : bytes) : result Z :=
  let body := rev (drop_spaces (rev (drop_spaces b))) in
  let parsed :=
    match body with
    | x :: r =>
        if byte_val x =? 45 then option_map Z.opp (parse_digits r 0 false)
        else if byte_val x =? 43 then parse_digits r 0 false
        else parse_digits body 0 false
    | [] => None
    end in
  match parsed with
  | Some v => Returns v
  | None => Raises ValueError
  end.

(** [v >> s] on Python integers: a negative shift count raises. *)
Definition py_rshift (v s : Z) : result Z :=
  if s <? 0 then Raises ValueError else Returns (Z.shiftr v s).

(** [li[i] = v] on a Python list, for an index [0 <= i]. *)
Fixpoint list_set {A : Type} (l : list A) (i : nat) (v : A) : option (list A) :=
  match l, i with
  | [], _ => None
  | _ :: r, O => Some (v :: r)
  | x :: r, S k => option_map (cons x) (list_set r k v)
  end.

Definition setitem {A : Type} (l : list A) (i : Z) (v : A) : result (list A) :=
  if i <? 0 then Raises IndexError
  else match list_set l (Z.to_nat i) v with
       | Some l' => Returns l'
       | None => Raises IndexError
       end.

(** [li[i]] on a Python list, for an index [0 <= i]. *)
Definition getitem {A : Type} (l : list A) (i : Z) : result A :=
  if i <? 0 then Raises IndexError
  else match nth_error l (Z.to_nat i) with
       | Some x => Returns x
       | None => Raises IndexError
       end.

(** ** uint256 *)

Definition U256_MASK : Z := 2 ^ 256 - 1.

(** [uint256(v)] *)
Definition uint256 (v : Z) : result Z :=
  if (0 <=? v) && (v <=? U256_MASK) then Returns v else Raises ValueError.

(** [x << n] on a uint256: bits shifted past position 255 are dropped. *)
Definition u256_lshift (x n : Z) : Z := Z.land (Z.shiftl x n) U256_MASK.

(** [x - y] on a uint256 *)
Definition u256_sub (x y : Z) : result Z := uint256 (x - y).

(** ** Path codec *)

Definition strip_nibble (v : Z) : Z := Z.shiftr v 4.

Definition read_nibble (v : Z) (i : Z) : Z := Z.land (Z.shiftr v (i * 4)) 0x0F.

Definition decode_path (encoded_path : bytes) : result (bool * Z * Z) :=
  match encoded_path with
  | [] => Returns (false, 0, 0)
  | b0 :: rest =>
      _ <- assert (len encoded_path <=? 32 + 1) ;;
      let flag_nibble := Z.shiftr (Z.land (byte_val b0) 0xF0) 4 in
      let terminating := negb (Z.land flag_nibble 2 =? 0) in
      let evenlen := Z.land flag_nibble 1 =? 0 in
      _ <- assert (Z.land flag_nibble 12 =? 0) ;;
      path_u256 <- uint256 (int_from_bytes (ljust rest 32)) ;;
      let path_nibble_len := len rest * 2 in
      if negb evenlen then
        _ <- assert (path_nibble_len <? 32) ;;
        let path_u256 := Z.shiftr path_u256 4 in
        let path_u256 :=
          Z.lor path_u256 (u256_lshift (Z.land (byte_val b0) 0x0F) (256 - 4)) in
        let path_nibble_len := path_nibble_len + 1 in
        Returns (terminating, path_u256, path_nibble_len)
      else
        Returns (terminating, path_u256, path_nibble_len)
  end.

(** In [encode_path] the parameter [path] is rebound to the one-byte string
    holding [first_byte]; the later [int(path)] therefore reads that byte
    string, not the integer path. *)
Definition encode_path (path : Z) (path_len : Z) (terminating : bool)
  : result bytes :=
  let first_byte := 0 in
  let '(first_byte, path, path_len) :=
    if path_len mod 2 =? 1 then
      (Z.lor first_byte (Z.lor (Z.shiftl 1 4) (Z.land path 0xf)),
       u256_lshift path 4,
       path_len - 1)
    else (first_byte, path, path_len) in
  let first_byte :=
    if terminating then Z.lor first_byte (Z.shiftl 2 4) else first_byte in
  path <- int_to_bytes first_byte 1 ;;
  if path_len =? 0 then Returns path
  else
    as_int <- int_of_bytes path ;;
    shifted <- py_rshift as_int (256 - path_len * 4) ;;
    remaining_bytes <- int_to_bytes shifted (path_len / 2) ;;
    Returns (path ++ remaining_bytes).

(** [common_nibble_prefix]: the [for i in range(max_common)] loop; [a] and
    [b] are not modified by the loop body. *)
Fixpoint common_nibble_prefix_loop (a b prefix : Z) (i : Z) (todo : nat)
  (max_common : Z) : Z * Z :=
  match todo with
  | O => (prefix, max_common)
  | S todo' =>
      let a_nib := Z.land (Z.shiftr a (256 - 4)) 0xF in
      let b_nib := Z.land (Z.shiftr b (256 - 4)) 0xF in
      if negb (a_nib =? b_nib) then (prefix, i)
      else
        let prefix :=
          Z.lor (Z.shiftr prefix 4) (Z.land a (Z.shiftl 0xF (256 - 4))) in
        common_nibble_prefix_loop a b prefix (i + 1) todo' max_common
  end.

Definition common_nibble_prefix (a b : Z) (a_len b_len : Z) : Z * Z :=
  let prefix := 0 in
  let max_common := Z.min a_len b_len in
  common_nibble_prefix_loop a b prefix 0 (Z.to_nat max_common) max_common.

(** The [i]-th nibble of a 256-bit path, counted from the most significant
    one (position 0). *)
Definition nibble_at (v : Z) (i : Z) : Z :=
  Z.land (Z.shiftr v (252 - 4 * i)) 0xF.

(** ** Steps and traces *)

(** The fields of a [Step] the trie engine reads or writes.  [step.py]
    declares them in the container [MPTWorkScope]; the engine addresses them
    as [mpt_]-prefixed attributes of the step, which are the names kept
    here.  [parent_node_step] and [return_to_step] are indices into the
    trace, as the engine uses them.  The scopes of a step the engine never
    touches (history, block, transaction, contract, state work) are carried
    over unchanged by [copy()] and are left out. *)
Record Step : Type := mkStep {
  mpt_global : bool;
  mpt_address_target : bytes;
  mpt_mode : Z;
  mpt_write_root : bytes;
  mpt_mode_on_finish : Z;
  mpt_parent_node_step : Z;
  mpt_current_root : bytes;
  mpt_fail_lookup : Z;
  mpt_lookup_key : Z;
  mpt_lookup_key_nibbles : Z;
  mpt_lookup_nibble_depth : Z;
  mpt_value : bytes;
  return_to_step : Z
}.

(** Attribute assignments [next.field = v] on a copied step. *)
Definition set_mpt_mode (v : Z) (s : Step) : Step :=
  mkStep (mpt_global s) (mpt_address_target s) v (mpt_write_root s)
    (mpt_mode_on_finish s) (mpt_parent_node_step s) (mpt_current_root s)
    (mpt_fail_lookup s) (mpt_lookup_key s) (mpt_lookup_key_nibbles s)
    (mpt_lookup_nibble_depth s) (mpt_value s) (return_to_step s).

Definition set_mpt_write_root (v : bytes) (s : Step) : Step :=
  mkStep (mpt_global s) (mpt_address_target s) (mpt_mode s) v
    (mpt_mode_on_finish s) (mpt_parent_node_step s) (mpt_current_root s)
    (mpt_fail_lookup s) (mpt_lookup_key s) (mpt_lookup_key_nibbles s)
    (mpt_lookup_nibble_depth s) (mpt_value s) (return_to_step s).

Definition set_mpt_parent_node_step (v : Z) (s : Step) : Step :=
  mkStep (mpt_global s) (mpt_address_target s) (mpt_mode s) (mpt_write_root s)
    (mpt_mode_on_finish s) v (mpt_current_root s)
    (mpt_fail_lookup s) (mpt_lookup_key s) (mpt_lookup_key_nibbles s)
    (mpt_lookup_nibble_depth s) (mpt_value s) (return_to_step s).

Definition set_mpt_current_root (v : bytes) (s : Step) : Step :=
  mkStep (mpt_global s) (mpt_address_target s) (mpt_mode s) (mpt_write_root s)
    (mpt_mode_on_finish s) (mpt_parent_node_step s) v
    (mpt_fail_lookup s) (mpt_lookup_key s) (mpt_lookup_key_nibbles s)
    (mpt_lookup_nibble_depth s) (mpt_value s) (return_to_step s).

Definition set_mpt_fail_lookup (v : Z) (s : Step) : Step :=
  mkStep (mpt_global s) (mpt_address_target s) (mpt_mode s) (mpt_write_root s)
    (mpt_mode_on_finish s) (mpt_parent_node_step s) (mpt_current_root s)
    v (mpt_lookup_key s) (mpt_lookup_key_nibbles s)
    (mpt_lookup_nibble_depth s) (mpt_value s) (return_to_step s).

Definition set_mpt_lookup_nibble_depth (v : Z) (s : Step) : Step :=
  mkStep (mpt_global s) (mpt_address_target s) (mpt_mode s) (mpt_write_root s)
    (mpt_mode_on_finish s) (mpt_parent_node_step s) (mpt_current_root s)
    (mpt_fail_lookup s) (mpt_lookup_key s) (mpt_lookup_key_nibbles s)
    v (mpt_value s) (return_to_step s).

Definition set_mpt_value (v : bytes) (s : Step) : Step :=
  mkStep (mpt_global s) (mpt_address_target s) (mpt_mode s) (mpt_write_root s)
    (mpt_mode_on_finish s) (mpt_parent_node_step s) (mpt_current_root s)
    (mpt_fail_lookup s) (mpt_lookup_key s) (mpt_lookup_key_nibbles s)
    (mpt_lookup_nibble_depth s) v (return_to_step s).

(** [Bytes32()]: thirty-two zero bytes. *)
Definition Bytes32_default : bytes := repeat x00 32.

(** Modelled from the spec: the trie store, class [MPT] of the module
    [trace], which is not among the sources.  The spec describes an external
    content-addressed map with [get_node(ref) -> bytes], which fails if the
    reference is unknown, and [put_node(bytes) -> ref]; writes are additive
    only and never overwrite.  The store is a list of bindings from
    references to raw node bytes; nothing forces a binding it was given to
    be honest, which is why the engine authenticates what it fetches. *)
Definition MPT : Type := list (bytes * bytes).

Fixpoint get_node (trie : MPT) (ref : bytes) : result bytes :=
  match trie with
  | [] => Raises KeyError
  | (k, raw) :: rest => if bytes_eqb k ref then Returns raw else get_node rest ref
  end.

(** Modelled from the spec: the trace, class [StepsTrace] of the module
    [trace], which is not among the sources.  An ordered, append-only
    sequence of steps with [last()], [by_index(i)] and [length()], and the
    selector of the logical trie a step works on (the global account trie
    or the storage trie of one account). *)
Record StepsTrace : Type := mkTrace {
  steps : list Step;
  world_accounts : MPT;
  account_storage : bytes -> MPT
}.

Definition trace_length (trac : StepsTrace) : Z := len (steps trac).

Definition trace_by_index (trac : StepsTrace) (i : Z) : result Step :=
  getitem (steps trac) i.

Definition trace_last (trac : StepsTrace) : result Step :=
  trace_by_index trac (trace_length trac - 1).

(** A local variable that is read before its first assignment. *)
Definition read_local {A : Type} (v : option A) : result A :=
  match v with
  | Some x => Returns x
  | None => Raises UnboundLocalError
  end.

(** ** The engine *)

Section Engine.

(** The node codec and the node hash: external primitives. *)
Variable rlp_decode_list : bytes -> result (list bytes).
Variable rlp_encode_list : list bytes -> bytes.
Variable mpt_hash : bytes -> bytes.

(** Modelled from the spec: [put_node(bytes) -> ref] of the trie store
    (module [trace], not among the sources): the bytes are added under
    their own hash; an existing binding of that reference stays in front. *)
Definition put_node (trie : MPT) (raw : bytes) : MPT * bytes :=
  (trie ++ [(mpt_hash raw, raw)], mpt_hash raw).

(** The write engine changes the store through [put_node]; its steps are
    computations over the store that may raise. *)
Definition W (A : Type) : Type := MPT -> result A * MPT.

Definition wret {A : Type} (a : A) : W A := fun trie => (Returns a, trie).

Definition wbind {A B : Type} (c : W A) (k : A -> W B) : W B :=
  fun trie =>
    match c trie with
    | (Returns a, trie') => k a trie'
    | (Raises e, trie') => (Raises e, trie')
    end.

Definition lift {A : Type} (r : result A) : W A := fun trie => (r, trie).

Definition trie_get_node (ref : bytes) : W bytes :=
  fun trie => (get_node trie ref, trie).

Definition trie_put_node (raw : bytes) : W bytes :=
  fun trie => let '(trie', ref) := put_node trie raw in (Returns ref, trie').

Notation "x <~ c ;; k" := (wbind c (fun x => k))
  (at level 61, c at next level, right associativity).
Notation "' pat <~ c ;; k" := (wbind c (fun x => match x with pat => k end))
  (at level 61, pat pattern, c at next level, right associativity).

(** *** Read engine *)

Definition reader_step_gen (trie : MPT) (trac : StepsTrace)
  : result (option Step) :=
  last <- trace_last trac ;;
  let next := last in
  let next := set_mpt_parent_node_step (trace_length trac - 1) next in
  if mpt_lookup_key_nibbles last =? mpt_lookup_nibble_depth last then
    value <-
      (if len (mpt_current_root last) <? 32 then
         Returns (mpt_current_root last)
       else
         value <- get_node trie (mpt_current_root last) ;;
         _ <- assert (bytes_eqb (mpt_hash value) (mpt_current_root next)) ;;
         Returns value) ;;
    let next :=
      if bytes_eqb value [] then set_mpt_fail_lookup 10 next else next in
    let next := set_mpt_value value next in
    let next := set_mpt_mode (mpt_mode_on_finish last) next in
    Returns (Some next)
  else
    data <- get_node trie (mpt_current_root last) ;;
    _ <- assert (bytes_eqb (mpt_hash data) (mpt_current_root next)) ;;
    data_li <- rlp_decode_list data ;;
    if len data_li =? 0 then
      let next := set_mpt_current_root Bytes32_default next in
      let next := set_mpt_value [] next in
      let next := set_mpt_fail_lookup 1 next in
      let next := set_mpt_mode (mpt_mode_on_finish last) next in
      Returns (Some next)
    else if len data_li =? 2 then
      encoded_path <- getitem data_li 0 ;;
      _ <- assert (len encoded_path >=? 1) ;;
      '(terminating, path_u256, path_nibble_len) <- decode_path encoded_path ;;
      if terminating : bool then
        let key_remainder :=
          u256_lshift (mpt_lookup_key last) (mpt_lookup_nibble_depth last * 4) in
        let new_depth := mpt_lookup_nibble_depth last + path_nibble_len in
        if new_depth =? mpt_lookup_key_nibbles last then
          if key_remainder =? path_u256 then
            item1 <- getitem data_li 1 ;;
            let next := set_mpt_current_root item1 next in
            let next := set_mpt_lookup_nibble_depth new_depth next in
            Returns (Some next)
          else
            let next := set_mpt_fail_lookup 2 next in
            let next := set_mpt_mode (mpt_mode_on_finish last) next in
            Returns (Some next)
        else if new_depth <? mpt_lookup_key_nibbles last then
          let next := set_mpt_fail_lookup 3 next in
          let next := set_mpt_mode (mpt_mode_on_finish last) next in
          Returns (Some next)
        else if new_depth >? mpt_lookup_key_nibbles last then
          let next := set_mpt_fail_lookup 4 next in
          let next := set_mpt_mode (mpt_mode_on_finish last) next in
          Returns (Some next)
        else Returns None
      else
        let new_depth := mpt_lookup_nibble_depth last + path_nibble_len in
        if new_depth >=? mpt_lookup_key_nibbles last then
          let next := set_mpt_fail_lookup 5 next in
          let next := set_mpt_mode (mpt_mode_on_finish last) next in
          Returns (Some next)
        else
          let key_remainder :=
            u256_lshift (mpt_lookup_key last)
              (mpt_lookup_nibble_depth last * 4) in
          mask <- u256_sub (u256_lshift 1 (path_nibble_len * 4)) 1 ;;
          let shifted_mask := u256_lshift mask (256 - path_nibble_len * 4) in
          let key_part := Z.land key_remainder shifted_mask in
          if negb (key_part =? path_u256) then
            let next := set_mpt_fail_lookup 6 next in
            let next := set_mpt_mode (mpt_mode_on_finish last) next in
            Returns (Some next)
          else
            item1 <- getitem data_li 1 ;;
            let next := set_mpt_current_root item1 next in
            let next := set_mpt_lookup_nibble_depth new_depth next in
            Returns (Some next)
    else if len data_li =? 17 then
      if mpt_lookup_nibble_depth last =? mpt_lookup_key_nibbles last then
        item16 <- getitem data_li 16 ;;
        let next := set_mpt_current_root item16 next in
        Returns (Some next)
      else
        let new_depth := mpt_lookup_nibble_depth last + 1 in
        _ <- assert (new_depth <=? 32) ;;
        let branch_lookup_nibble :=
          Z.shiftr
            (u256_lshift (mpt_lookup_key last)
               (mpt_lookup_nibble_depth last * 4))
            (256 - 4) in
        item <- getitem data_li branch_lookup_nibble ;;
        let next := set_mpt_current_root item next in
        let next := set_mpt_lookup_nibble_depth new_depth next in
        Returns (Some next)
    else Returns None.

(** *** Write-start *)

Definition write_start_step (trac : StepsTrace) : result (option Step) :=
  last <- trace_last trac ;;
  let next := last in
  let next :=
    if len (mpt_value last) >=? 32 then
      set_mpt_current_root (mpt_hash (mpt_value last)) next
    else
      set_mpt_current_root (mpt_value last) next in
  let next := set_mpt_mode 3 next in
  Returns (Some next).

(** *** Write engine *)

(** The tail shared by the three leaf-splitting cases of [write_step]: the
    branch node is encoded, stored and hashed, and wrapped in an extension
    node when the two keys have a common prefix. *)
Definition persist_split (branch_node : list bytes) (prefix_path prefix_len : Z)
  (next : Step) : W (option Step) :=
  let branch_raw := rlp_encode_list branch_node in
  _ <~ trie_put_node branch_raw ;;
  let branch_root := mpt_hash branch_raw in
  if prefix_len >? 0 then
    extension_path <~ lift (encode_path prefix_path prefix_len false) ;;
    let extension_node := [extension_path; branch_root] in
    let extension_raw := rlp_encode_list extension_node in
    _ <~ trie_put_node extension_raw ;;
    let extension_root := mpt_hash extension_raw in
    let next := set_mpt_write_root extension_root next in
    wret (Some next)
  else
    let next := set_mpt_write_root branch_root next in
    wret (Some next).

(** The index expression [(p << (prefix_len*4)) & (0xF << (256-4))] used to
    pick a slot of the new branch node. *)
Definition split_slot (p prefix_len : Z) : Z :=
  Z.land (u256_lshift p (prefix_len * 4)) (Z.shiftl 0xF (256 - 4)).

Definition write_step (trac : StepsTrace) : W (option Step) :=
  last <~ lift (trace_last trac) ;;
  parent <~ lift (trace_by_index trac (mpt_parent_node_step last)) ;;
  let next := parent in
  parent_data <~ trie_get_node (mpt_current_root parent) ;;
  _ <~ lift (assert (bytes_eqb (mpt_hash parent_data) (mpt_current_root parent))) ;;
  parent_data_li <~ lift (rlp_decode_list parent_data) ;;
  if negb (len parent_data_li =? 0) then
    let next := set_mpt_write_root (mpt_write_root last) next in
    wret (Some next)
  else if len parent_data_li =? 2 then
    encoded_path <~ lift (getitem parent_data_li 0) ;;
    _ <~ lift (assert (len encoded_path >=? 1)) ;;
    '(terminating, path_u256, path_nibble_len) <~ lift (decode_path encoded_path) ;;
    if terminating : bool then
      let key_remainder :=
        u256_lshift (mpt_lookup_key parent)
          (mpt_lookup_nibble_depth parent * 4) in
      let new_depth := mpt_lookup_nibble_depth parent + path_nibble_len in
      if new_depth =? mpt_lookup_key_nibbles parent then
        if key_remainder =? path_u256 then
          parent_data_li <~ lift (setitem parent_data_li 1 (mpt_write_root last)) ;;
          let new_node_raw := rlp_encode_list parent_data_li in
          let new_key := mpt_hash new_node_raw in
          let next := set_mpt_write_root new_key next in
          _ <~ trie_put_node new_node_raw ;;
          wret (Some next)
        else
          let remainder_nibble_len :=
            mpt_lookup_key_nibbles parent - mpt_lookup_nibble_depth parent in
          _ <~ lift (assert (remainder_nibble_len =? path_nibble_len)) ;;
          let '(prefix_path, prefix_len) :=
            common_nibble_prefix key_remainder path_u256
              remainder_nibble_len path_nibble_len in
          leaf_sibling <~ lift (getitem parent_data_li 1) ;;
          let leaf_new := mpt_write_root last in
          '(leaf_sibling, leaf_new) <~
            (if prefix_len + 1 <? path_nibble_len then
               let remaining_len := path_nibble_len - prefix_len - 1 in
               leaf_sibling_path <~
                 lift (encode_path (u256_lshift path_u256 ((prefix_len + 1) * 4))
                         remaining_len true) ;;
               leaf_new_path <~
                 lift (encode_path (u256_lshift key_remainder ((prefix_len + 1) * 4))
                         remaining_len true) ;;
               let leaf_sibling_node := [leaf_sibling_path; leaf_sibling] in
               let leaf_new_node := [leaf_new_path; leaf_new] in
               let leaf_sibling_raw := rlp_encode_list leaf_sibling_node in
               _ <~ trie_put_node leaf_sibling_raw ;;
               let leaf_sibling := mpt_hash leaf_sibling_raw in
               let leaf_new_raw := rlp_encode_list leaf_new_node in
               _ <~ trie_put_node leaf_new_raw ;;
               let leaf_new := mpt_hash leaf_new_raw in
               wret (leaf_sibling, leaf_new)
             else wret (leaf_sibling, leaf_new)) ;;
          let branch_node := repeat ([] : bytes) 17 in
          branch_node <~
            lift (setitem branch_node (split_slot path_u256 prefix_len) leaf_sibling) ;;
          branch_node <~
            lift (setitem branch_node (split_slot key_remainder prefix_len) leaf_new) ;;
          persist_split branch_node prefix_path prefix_len next
      else if new_depth <? mpt_lookup_key_nibbles parent then
        let remainder_nibble_len :=
          mpt_lookup_key_nibbles parent - mpt_lookup_nibble_depth parent in
        _ <~ lift (assert (path_nibble_len <? remainder_nibble_len)) ;;
        let '(prefix_path, prefix_len) :=
          common_nibble_prefix key_remainder path_u256
            remainder_nibble_len path_nibble_len in
        leaf_sibling <~ lift (getitem parent_data_li 1) ;;
        let leaf_new := mpt_write_root last in
        leaf_new <~
          (if path_nibble_len + 1 <? remainder_nibble_len then
             let remaining_len := remainder_nibble_len - prefix_len - 1 in
             leaf_new_path <~
               lift (encode_path (u256_lshift key_remainder ((prefix_len + 1) * 4))
                       remaining_len true) ;;
             let leaf_new_node := [leaf_new_path; leaf_new] in
             let leaf_new_raw := rlp_encode_list leaf_new_node in
             _ <~ trie_put_node leaf_new_raw ;;
             wret (mpt_hash leaf_new_raw)
           else wret leaf_new) ;;
        let branch_node := repeat ([] : bytes) 17 in
        branch_node <~ lift (setitem branch_node 16 leaf_sibling) ;;
        branch_node <~
          lift (setitem branch_node (split_slot key_remainder prefix_len) leaf_new) ;;
        persist_split branch_node prefix_path prefix_len next
      else if new_depth >? mpt_lookup_key_nibbles parent then
        let remainder_nibble_len :=
          mpt_lookup_key_nibbles parent - mpt_lookup_nibble_depth parent in
        _ <~ lift (assert (path_nibble_len >? remainder_nibble_len)) ;;
        let '(prefix_path, prefix_len) :=
          common_nibble_prefix key_remainder path_u256
            remainder_nibble_len path_nibble_len in
        leaf_sibling <~ lift (getitem parent_data_li 1) ;;
        let leaf_new := mpt_write_root last in
        leaf_sibling <~
          (if path_nibble_len >? remainder_nibble_len + 1 then
             let remaining_len := path_nibble_len - prefix_len - 1 in
             leaf_sibling_path <~
               lift (encode_path (u256_lshift path_u256 ((prefix_len + 1) * 4))
                       remaining_len true) ;;
             let leaf_sibling_node := [leaf_sibling_path; leaf_sibling] in
             let leaf_sibling_raw := rlp_encode_list leaf_sibling_node in
             _ <~ trie_put_node leaf_sibling_raw ;;
             wret (mpt_hash leaf_sibling_raw)
           else wret leaf_sibling) ;;
        let branch_node := repeat ([] : bytes) 17 in
        branch_node <~
          lift (setitem branch_node (split_slot path_u256 prefix_len) leaf_sibling) ;;
        branch_node <~ lift (setitem branch_node 16 leaf_new) ;;
        persist_split branch_node prefix_path prefix_len next
      else wret None
    else
      let new_depth := mpt_lookup_nibble_depth parent + path_nibble_len in
      if new_depth >=? mpt_lookup_key_nibbles parent then
        wret (Some next)
      else
        let key_remainder :=
          u256_lshift (mpt_lookup_key parent)
            (mpt_lookup_nibble_depth parent * 4) in
        mask <~ lift (u256_sub (u256_lshift 1 (path_nibble_len * 4)) 1) ;;
        let shifted_mask := u256_lshift mask (256 - path_nibble_len * 4) in
        let key_part := Z.land key_remainder shifted_mask in
        if negb (key_part =? path_u256) then
          wret (Some next)
        else
          _ <~ lift (setitem parent_data_li 1 (mpt_write_root last)) ;;
          wret (Some next)
  else if len parent_data_li =? 17 then
    if mpt_lookup_nibble_depth parent =? mpt_lookup_key_nibbles parent then
      _ <~ lift (setitem parent_data_li 16 (mpt_write_root last)) ;;
      wret (Some next)
    else
      let new_depth := mpt_lookup_nibble_depth parent + 1 in
      _ <~ lift (assert (new_depth <=? 32)) ;;
      let branch_lookup_nibble :=
        Z.shiftr
          (u256_lshift (mpt_lookup_key parent)
             (mpt_lookup_nibble_depth parent * 4))
          (256 - 4) in
      _ <~ lift (setitem parent_data_li branch_lookup_nibble (mpt_write_root last)) ;;
      wret (Some next)
  else wret None.

(** *** Dispatcher *)

(** In the RETURNING case the source reads [next.return_to_step] before the
    local [next] has been assigned. *)
Definition next_mpt_step (trac : StepsTrace) : result (option Step) :=
  last <- trace_last trac ;;
  let mpt_mode := mpt_mode last in
  let trie :=
    if mpt_global last then world_accounts trac
    else account_storage trac (mpt_address_target last) in
  if mpt_mode =? 0 then
    next <- read_local (None : option Step) ;;
    caller <- trace_by_index trac (return_to_step next) ;;
    let next := caller in
    let next := set_mpt_value (mpt_value last) next in
    let next := set_mpt_current_root (mpt_current_root last) next in
    Returns (Some next)
  else if mpt_mode =? 1 then
    let proc := reader_step_gen trie in
    proc trac
  else if mpt_mode =? 2 then
    write_start_step trac
  else if mpt_mode =? 3 then
    Raises NotImplementedError
  else Returns None.

End Engine.

Arguments reader_step_gen rlp_decode_list mpt_hash trie trac : assert.
Arguments write_step rlp_decode_list rlp_encode_list mpt_hash trac _ : assert.
Arguments next_mpt_step rlp_decode_list mpt_hash trac : assert.

(** ** A concrete instance of the external primitives

    Closed examples need a node codec and a node hash that compute.  The
    codec writes every item behind one byte holding its length; the hash is
    a 32-byte word ending in the byte sum of the data. *)

Fixpoint ex_decode_items (fuel : nat) (b : bytes) : result (list bytes) :=
  match fuel with
  | O => Returns []
  | S fuel' =>
      match b with
      | [] => Returns []
      | n :: r =>
          let n := Z.to_nat (byte_val n) in
          if (length r <? n)%nat then Raises ValueError
          else
            items <- ex_decode_items fuel' (skipn n r) ;;
            Returns (firstn n r :: items)
      end
  end.

Definition ex_rlp_decode_list (b : bytes) : result (list bytes) :=
  ex_decode_items (length b) b.

Definition ex_rlp_encode_list (items : list bytes) : bytes :=
  concat (map (fun item => byte_of_Z (len item) :: item) items).

Definition ex_mpt_hash (data : bytes) : bytes :=
  repeat x00 31 ++
  [byte_of_Z (fold_left (fun acc x => acc + byte_val x) data 0 mod 256)].

Definition ex_reader := reader_step_gen ex_rlp_decode_list ex_mpt_hash.
Definition ex_writer := write_step ex_rlp_decode_list ex_rlp_encode_list ex_mpt_hash.
Definition ex_next_mpt_step := next_mpt_step ex_rlp_decode_list ex_mpt_hash.

(** A store holding exactly the given raw nodes, each under its hash. *)
Definition ex_store (nodes : list bytes) : MPT :=
  map (fun raw => (ex_mpt_hash raw, raw)) nodes.

Definition ex_trace (l : list Step) : StepsTrace :=
  mkTrace l [] (fun _ => []).

(** A reading step at [depth] of a [key_nibbles]-nibble key, visiting
    [root]. *)
Definition ex_reading_step (root : bytes) (key key_nibbles depth : Z) : Step :=
  {| mpt_global := true; mpt_address_target := [];
     mpt_mode := 1; mpt_write_root := []; mpt_mode_on_finish := 0;
     mpt_parent_node_step := 0; mpt_current_root := root;
     mpt_fail_lookup := 0; mpt_lookup_key := key;
     mpt_lookup_key_nibbles := key_nibbles;
     mpt_lookup_nibble_depth := depth; mpt_value := [];
     return_to_step := 0 |}.

(** Scenario B of the specification: one leaf at the 3-nibble key [0xabc]
    holding [b"hello"]. *)
Definition ex_leaf_abc : bytes :=
  ex_rlp_encode_list [[x3a; xbc]; [x68; x65; x6c; x6c; x6f]].

(** An extension node over the two nibbles [a], [b], pointing at a child
    reference. *)
Definition ex_ext_ab : bytes :=
  ex_rlp_encode_list [[x00; xab]; repeat x11 32].

(** A branch node whose slots 0..15 hold the one-byte items 0x30..0x3f. *)
Definition ex_branch : bytes :=
  ex_rlp_encode_list
    (map (fun b => [b])
       [x30; x31; x32; x33; x34; x35; x36; x37;
        x38; x39; x3a; x3b; x3c; x3d; x3e; x3f] ++ [[]]).

(** A leaf whose path is a whole 64-nibble key. *)
Definition ex_key64 : Z := int_from_bytes (repeat xab 32).
Definition ex_leaf64 : bytes :=
  ex_rlp_encode_list [x20 :: repeat xab 32; [x6f; x6c; x64]].

(** ** Predicates used by the statements *)

(** A valid path: [count] nibbles held in the most significant positions of
    a 256-bit word, all remaining bits zero. *)
Definition valid_path (nibbles count : Z) : Prop :=
  0 <= count <= 64 /\ 0 <= nibbles < 2 ^ 256 /\
  nibbles mod 2 ^ (256 - 4 * count) = 0.

Definition path_round_trip (nibbles count : Z) (terminating : bool)
  : result (bool * Z * Z) :=
  encoded <- encode_path nibbles count terminating ;;
  decode_path encoded.

(** What the round trip of a [count]-nibble valid path can produce: it
    raises, or it returns a word that is no valid [count]-nibble path. *)
Definition round_trip_breaks (count : Z) (terminating : bool) : bool :=
  match path_round_trip 0 count terminating with
  | Raises _ => true
  | Returns (_, p, _) => negb (p mod 2 ^ (256 - 4 * count) =? 0)
  end.

Definition top_nibble (v : Z) : Z := Z.land (Z.shiftr v (256 - 4)) 0xF.

(** The property the specification asks of the returned length [L]. *)
Definition common_prefix_correct (a b a_len b_len L : Z) : Prop :=
  L <= Z.min a_len b_len
  /\ (forall i, 0 <= i < L -> nibble_at a i = nibble_at b i)
  /\ (L < Z.min a_len b_len -> nibble_at a L <> nibble_at b L).

(** A read step fetches from the store unless it has arrived at the key
    depth with an inline (shorter than 32 bytes) root. *)
Definition reader_fetches (last : Step) : bool :=
  negb (mpt_lookup_key_nibbles last =? mpt_lookup_nibble_depth last)
  || negb (len (mpt_current_root last) <? 32).

(** What the successor of an arrived read step looks like, for the resolved
    [value]. *)
Definition arrival_outcome (trac : StepsTrace) (last : Step) (value : bytes)
  (next : Step) : Prop :=
  mpt_value next = value
  /\ mpt_mode next = mpt_mode_on_finish last
  /\ (value = [] -> mpt_fail_lookup next = 10)
  /\ (value <> [] -> mpt_fail_lookup next = mpt_fail_lookup last)
  /\ mpt_current_root next = mpt_current_root last
  /\ mpt_lookup_nibble_depth next = mpt_lookup_nibble_depth last
  /\ mpt_parent_node_step next = trace_length trac - 1.

(** Example data for the closed statements. *)

Definition ex_hello : bytes := [x68; x65; x6c; x6c; x6f].
Definition ex_old : bytes := [x6f; x6c; x64].
Definition ex_new : bytes := [x6e; x65; x77].

(** Scenario B: reading the key [0xabc] from the one-leaf trie. *)
Definition ex_key_abc : Z := 0xabc * 2 ^ 244.
Definition ex_read_abc : Step :=
  ex_reading_step (ex_mpt_hash ex_leaf_abc) ex_key_abc 3 0.

(** Reading the 4-nibble key [0xab12] through the extension over [a], [b]. *)
Definition ex_key_ab12 : Z := 0xab12 * 2 ^ 240.
Definition ex_read_ab12 : Step :=
  ex_reading_step (ex_mpt_hash ex_ext_ab) ex_key_ab12 4 0.

(** Reading a 64-nibble key, at [depth], with the branch node as current
    node. *)
Definition ex_read_branch (depth : Z) : Step :=
  ex_reading_step (ex_mpt_hash ex_branch) ex_key64 64 depth.

(** Writing [b"new"] at the 64-nibble key of the leaf [ex_leaf64]: the step
    that visited the leaf, and the step the write engine starts from. *)
Definition ex_write_parent : Step :=
  ex_reading_step (ex_mpt_hash ex_leaf64) ex_key64 64 0.
Definition ex_write_last : Step :=
  set_mpt_write_root ex_new
    (set_mpt_mode 3 (ex_reading_step ex_old ex_key64 64 64)).

(** A step in RETURNING mode whose caller is the step at index 0. *)
Definition ex_caller : Step := ex_reading_step [] 0 0 0.
Definition ex_returning : Step :=
  set_mpt_value ex_hello (set_mpt_mode 0 (ex_reading_step ex_hello 0 0 0)).

(** A store that answers the reference 0x11...11 with bytes of another
    hash. *)
Definition ex_forged_ref : bytes := repeat x11 32.
Definition ex_forged_store : MPT := [(ex_forged_ref, [x01])].
Definition ex_read_forged : Step := ex_reading_step ex_forged_ref ex_key_abc 3 0.

(** Arrived steps: one with an inline root, one with a 32-byte reference. *)
Definition ex_arrived_inline : Step := ex_reading_step ex_hello ex_key_abc 3 3.
Definition ex_arrived_ref : Step :=
  ex_reading_step (ex_mpt_hash ex_hello) ex_key_abc 3 3.


(** ** The containers of [step.py]

    The classes of [step.py] are lists and byte vectors of the container
    library with a few methods on top.  For these methods a call that
    raises is [None].  What the methods rely on from the library: a list
    has a length limit that [append] enforces; an element is read or
    written at an index in [0, len) only, a slice needs all its indices in
    that range, and [pop] needs a non-empty list; [Bytes32(b)] and
    [Address(b)] take exactly 32 and 20 bytes; a fixed-width integer
    rejects a result outside its range. *)

Definition obind {A B : Type} (c : option A) (k : A -> option B) : option B :=
  match c with
  | Some a => k a
  | None => None
  end.

Notation "x <-- c ;; k" := (obind c (fun x => k))
  (at level 61, c at next level, right associativity).

(** [l.append(v)] on a list with a length limit *)
Definition List_append {A : Type} (limit : Z) (l : list A) (v : A)
  : option (list A) :=
  if len l <? limit then Some (l ++ [v]) else None.

(** [l.pop()] *)
Definition List_pop {A : Type} (l : list A) : option (list A) :=
  match l with
  | [] => None
  | _ :: _ => Some (removelast l)
  end.

(** [l[i]] *)
Definition List_get {A : Type} (l : list A) (i : Z) : option A :=
  if (0 <=? i) && (i <? len l) then nth_error l (Z.to_nat i) else None.

(** [l[i] = v] *)
Definition List_set {A : Type} (l : list A) (i : Z) (v : A)
  : option (list A) :=
  if (0 <=? i) && (i <? len l) then list_set l (Z.to_nat i) v else None.

(** [l[a:b]] *)
Definition List_slice {A : Type} (l : list A) (a b : Z) : option (list A) :=
  if b <=? a then Some []
  else if (0 <=? a) && (b <=? len l) then
    Some (firstn (Z.to_nat (b - a)) (skipn (Z.to_nat a) l))
  else None.

(** [l[a:b] = v]: the elements at [a .. b-1] are replaced one by one by
    the items of [v], which must be as many. *)
Definition List_set_slice {A : Type} (l : list A) (a b : Z) (v : list A)
  : option (list A) :=
  if (0 <=? a) && (a <=? b) && (b <=? len l) && (len v =? b - a) then
    Some (firstn (Z.to_nat a) l ++ v ++ skipn (Z.to_nat b) l)
  else None.

(** [ByteVector[n](b)], as in [Bytes32(b)] and [Address(b)] *)
Definition ByteVector (n : Z) (b : bytes) : option bytes :=
  if len b =? n then Some b else None.

(** [b.rjust(width)]: as [ljust], with the padding in front. *)
Definition rjust (b : bytes) (width : nat) : bytes :=
  repeat x20 (width - length b) ++ b.

Module Address.

Definition to_b32 (self : bytes) : option bytes :=
  ByteVector 32 (rjust self 32).

Definition from_b32 (v : bytes) : option bytes :=
  ByteVector 20 (firstn 20 v).

End Address.

Module Memory.

Definition limit : Z := 64 * 2 ^ 20.

Fixpoint append_zeros (count : nat) (self : bytes) : option bytes :=
  match count with
  | O => Some self
  | S count' =>
      self' <-- List_append limit self x00 ;;
      append_zeros count' self'
  end.

(** [for i in range(32): self.append(0)] *)
Definition append_zero_32_bytes (self : bytes) : option bytes :=
  append_zeros 32 self.

Definition get_ptr_32_bytes (self : bytes) (offset : Z) : option bytes :=
  if len self >? offset then
    window <-- List_slice self offset (offset + 32) ;;
    ByteVector 32 window
  else Some Bytes32_default.

Definition set_32_bytes (self : bytes) (offset : Z) (val : bytes)
  : option bytes :=
  if offset + 32 >? len self then None
  else List_set_slice self offset (offset + 32) val.

End Memory.

(** [uint256.encode_bytes] and [uint256.decode_bytes], big-endian as the
    comments in the source say. *)
Definition uint256_to_b32 (v : Z) : bytes := rev (le_bytes v 32).

Definition b32_to_uint256 (v : bytes) : Z := int_from_bytes v.

Module Stack.

Definition limit : Z := 1024.



Definition pop_b32 (self : list bytes) : option (bytes * list bytes) :=
  v <-- List_get self (len self - 1) ;;
  self' <-- List_pop self ;;
  Some (v, self').


Definition dup (self : list bytes) (n : Z) : option (list bytes) :=
  v <-- List_get self (len self - n) ;;
  List_append limit self v.

Definition swap (self : list bytes) (n : Z) : option (list bytes) :=
  let l := len self in
  a <-- List_get self (l - 1) ;;
  b <-- List_get self (l - n) ;;
  self1 <-- List_set self (l - n) a ;;
  List_set self1 (l - 1) b.


Definition peek_u256 (self : list bytes) : option Z :=
  option_map b32_to_uint256 (List_get self (len self - 1)).


Definition tweak_u256 (self : list bytes) (v : Z) : option (list bytes) :=
  List_set self (len self - 1) (uint256_to_b32 v).


Definition tweak_back_u256 (self : list bytes) (v : Z) (n : Z)
  : option (list bytes) :=
  let length := len self in
  if n + 1 >? length then None
  else List_set self (length - n - 1) (uint256_to_b32 v).

Definition back_b32 (self : list bytes) (n : Z) : option bytes :=
  let length := len self in
  if n + 1 >? length then None
  else List_get self (length - n - 1).

Definition back_u256 (self : list bytes) (n : Z) : option Z :=
  let length := len self in
  if n + 1 >? length then None
  else option_map b32_to_uint256 (List_get self (length - n - 1)).

End Stack.

Module Input.

Definition get_data_b32 (self : bytes) (start : Z) : option bytes :=
  let length := len self in
  if start >? length then Some Bytes32_default
  else
    let end_ := start + 32 in
    if end_ >? length then
      rest <-- List_slice self start length ;;
      ByteVector 32 (ljust rest 32)
    else
      rest <-- List_slice self start length ;;
      ByteVector 32 rest.

End Input.

(** The gas counter of [ContractScope], a [uint64], with the two methods
    of the class; they read and write no other field of the scope. *)
Module ContractScope.

Definition UINT64_MAX : Z := 2 ^ 64 - 1.

(** [use_gas]: the result and the gas afterwards; false when out of gas. *)
Definition use_gas (gas : Z) (delta : Z) : bool * Z :=
  let pre_gas := gas in
  if delta >? pre_gas then (false, gas)
  else (true, pre_gas - delta).

(** [return_gas]: [self.gas += delta] *)
Definition return_gas (gas : Z) (delta : Z) : option Z :=
  if gas + delta <=? UINT64_MAX then Some (gas + delta) else None.

End ContractScope.

(** * Properties *)

(** ** Basic facts about the primitives *)

Lemma bytes_eqb_refl (a : bytes) : bytes_eqb a a = true.
Proof.
  induction a as [|x a IH]; simpl; [reflexivity|].
  unfold byte_eqb. rewrite (Byte.byte_dec_lb eq_refl). exact IH.
Qed.

Lemma bytes_eqb_eq (a b : bytes) : bytes_eqb a b = true <-> a = b.
Proof.
  split.
  - revert b. induction a as [|x a IH]; intros [|y b] H; simpl in H;
      try discriminate; [reflexivity|].
    apply andb_true_iff in H. destruct H as [Hx Hr].
    apply Byte.byte_dec_bl in Hx. subst y. f_equal. apply IH. exact Hr.
  - intros ->. apply bytes_eqb_refl.
Qed.

Lemma bytes_eqb_neq (a b : bytes) : a <> b -> bytes_eqb a b = false.
Proof.
  intros H. destruct (bytes_eqb a b) eqn:E; [|reflexivity].
  apply bytes_eqb_eq in E. contradiction.
Qed.

Lemma bind_returns {A B : Type} (c : result A) (k : A -> result B) (b : B) :
  bind c k = Returns b -> exists a, c = Returns a /\ k a = Returns b.
Proof.
  destruct c as [a|e]; simpl; intros H; [eauto | discriminate].
Qed.

Lemma assert_returns (cond : bool) (u : unit) :
  assert cond = Returns u -> cond = true.
Proof. destruct cond; simpl; [reflexivity | discriminate]. Qed.

(** ** Path codec *)

(** The reserved bits of the flag nibble are bits 7 and 6 of the first
    byte. *)
Lemma reserved_flag_bits (b0 : byte) :
  Z.land (byte_val b0) 0xC0 <> 0 ->
  (Z.land (Z.shiftr (Z.land (byte_val b0) 0xF0) 4) 12 =? 0) = false.
Proof.
  destruct b0; intros H; try reflexivity; exfalso; apply H; reflexivity.
Qed.

(** C10.  [decode_path] applied to the empty byte string returns
    [(0, 0, 0)] (not terminating, zero path, zero nibbles) without aborting,
    whereas malformed inputs abort: an encoded path longer than 33 bytes,
    and a first byte with a reserved flag bit set. *)
Theorem decode_path_empty_and_malformed :
  decode_path [] = Returns (false, 0, 0)
  /\ (forall encoded_path : bytes,
        33 < len encoded_path ->
        decode_path encoded_path = Raises AssertionError)
  /\ (forall (b0 : byte) (rest : bytes),
        Z.land (byte_val b0) 0xC0 <> 0 ->
        decode_path (b0 :: rest) = Raises AssertionError).
Proof.
  split; [reflexivity|]. split.
  - intros [|b0 rest] H; [vm_compute in H; discriminate|].
    unfold decode_path.
    replace (len (b0 :: rest) <=? 32 + 1) with false; [reflexivity|].
    symmetry. apply Z.leb_gt. exact H.
  - intros b0 rest H. unfold decode_path.
    destruct (len (b0 :: rest) <=? 32 + 1); [|reflexivity].
    rewrite (reserved_flag_bits b0 H). reflexivity.
Qed.

Lemma decode_path_empty_and_malformed_witness :
  decode_path (repeat x00 34) = Raises AssertionError
  /\ decode_path [x40; xab] = Raises AssertionError.
Proof.
  destruct decode_path_empty_and_malformed as [_ [Hlong Hflag]].
  split.
  - apply (Hlong (repeat x00 34)). reflexivity.
  - apply (Hflag x40 [xab]). discriminate.
Defined.

(** *** Round trip *)

(** [encode_path] looks at its path argument only through the lowest
    nibble, and only for an odd length. *)
Lemma encode_path_low_nibble (path path_len : Z) (terminating : bool) :
  encode_path path path_len terminating =
  encode_path (if path_len mod 2 =? 1 then Z.land path 0xf else 0)
    path_len terminating.
Proof.
  unfold encode_path. destruct (path_len mod 2 =? 1); [|reflexivity].
  cbv beta iota zeta.
  replace (Z.land (Z.land path 0xf) 0xf) with (Z.land path 0xf);
    [reflexivity|].
  rewrite <- Z.land_assoc. reflexivity.
Qed.

Lemma valid_path_low_nibble (nibbles count : Z) :
  valid_path nibbles count -> count < 64 -> Z.land nibbles 0xf = 0.
Proof.
  intros (Hc & Hn & Hz) Hlt.
  change 0xf with (Z.ones 4). rewrite Z.land_ones by lia.
  apply Z.mod_divide in Hz; [|apply Z.pow_nonzero; lia].
  apply Z.mod_divide; [lia|].
  apply Z.divide_trans with (2 ^ (256 - 4 * count)); [|exact Hz].
  exists (2 ^ (256 - 4 * count - 4)).
  rewrite <- Z.pow_add_r by lia. f_equal. lia.
Qed.

Lemma encode_path_valid (nibbles count : Z) (terminating : bool) :
  valid_path nibbles count ->
  encode_path nibbles count terminating = encode_path 0 count terminating.
Proof.
  intros Hv. rewrite encode_path_low_nibble.
  rewrite (encode_path_low_nibble 0).
  destruct (count mod 2 =? 1) eqn:Hodd; [|reflexivity].
  assert (count < 64).
  { destruct Hv as (Hc & _). apply Z.eqb_eq in Hodd.
    assert (count <> 64) by (intros ->; discriminate). lia. }
  rewrite (valid_path_low_nibble _ _ Hv) by assumption. reflexivity.
Qed.

Lemma round_trip_breaks_all :
  forallb (fun n => round_trip_breaks (Z.of_nat n) true
                    && round_trip_breaks (Z.of_nat n) false)
    (seq 0 65) = true.
Proof. vm_compute. reflexivity. Qed.

(** No valid path survives the round trip. *)
Lemma path_round_trip_never_holds (nibbles count : Z) (terminating : bool) :
  valid_path nibbles count ->
  path_round_trip nibbles count terminating
  <> Returns (terminating, nibbles, count).
Proof.
  intros Hv Heq.
  pose proof Hv as (Hc & Hn & Hz).
  unfold path_round_trip in Heq.
  rewrite (encode_path_valid _ _ _ Hv) in Heq.
  pose proof round_trip_breaks_all as Hall.
  rewrite forallb_forall in Hall.
  specialize (Hall (Z.to_nat count)).
  rewrite Z2Nat.id in Hall by lia.
  assert (Hin : In (Z.to_nat count) (seq 0 65)) by (apply in_seq; lia).
  apply Hall in Hin. apply andb_true_iff in Hin.
  assert (Hb : round_trip_breaks count terminating = true)
    by (destruct terminating; tauto).
  unfold round_trip_breaks, path_round_trip in Hb.
  rewrite Heq in Hb.
  apply negb_true_iff in Hb. apply Z.eqb_neq in Hb. contradiction.
Qed.

(** C2 (fails on the code).  The empty path [(0, 0, False)] is encoded as
    the single byte 0x00; decoding that byte pads the missing 32 path bytes
    with the default fill byte of [ljust], the space 0x20, and returns the
    path 0x2020...20 instead of 0.  A two-nibble path does not even encode:
    [int()] of the rebound one-byte string raises. *)
Theorem path_round_trip_breaks_on_empty_path :
  valid_path 0 0
  /\ encode_path 0 0 false = Returns [x00]
  /\ decode_path [x00]
     = Returns (false,
         0x2020202020202020202020202020202020202020202020202020202020202020,
         0)
  /\ path_round_trip 0 0 false <> Returns (false, 0, 0)
  /\ valid_path (0xab * 2 ^ 248) 2
  /\ encode_path (0xab * 2 ^ 248) 2 true = Raises ValueError.
Proof.
  assert (Hv0 : valid_path 0 0)
    by (unfold valid_path; repeat split; vm_compute; congruence).
  assert (Hv2 : valid_path (0xab * 2 ^ 248) 2)
    by (unfold valid_path; repeat split; vm_compute; congruence).
  split; [exact Hv0|].
  split; [vm_compute; reflexivity|]. split; [vm_compute; reflexivity|].
  split; [apply path_round_trip_never_holds; exact Hv0|].
  split; [exact Hv2 | vm_compute; reflexivity].
Qed.

(** *** Common prefix *)

Lemma common_nibble_prefix_loop_equal (a b : Z) (max_common : Z) :
  top_nibble a = top_nibble b ->
  forall (todo : nat) (prefix i : Z),
    snd (common_nibble_prefix_loop a b prefix i todo max_common) = max_common.
Proof.
  intros Htop. induction todo as [|todo IH]; intros prefix i;
    cbn [common_nibble_prefix_loop].
  - reflexivity.
  - fold (top_nibble a) (top_nibble b). rewrite Htop, Z.eqb_refl.
    cbn [negb]. apply IH.
Qed.

Lemma common_nibble_prefix_loop_differ (a b : Z) (max_common : Z) :
  top_nibble a <> top_nibble b ->
  forall (todo : nat) (prefix i : Z),
    common_nibble_prefix_loop a b prefix i (S todo) max_common = (prefix, i).
Proof.
  intros Htop todo prefix i. cbn [common_nibble_prefix_loop].
  fold (top_nibble a) (top_nibble b).
  apply Z.eqb_neq in Htop. rewrite Htop. reflexivity.
Qed.

(** What [common_nibble_prefix] returns as length: the loop never moves on
    to the next nibble, so only the first nibbles are ever compared. *)
Lemma common_nibble_prefix_length (a b a_len b_len : Z) :
  snd (common_nibble_prefix a b a_len b_len) =
  if (Z.min a_len b_len <=? 0) || (top_nibble a =? top_nibble b)
  then Z.min a_len b_len else 0.
Proof.
  unfold common_nibble_prefix.
  destruct (Z.min a_len b_len <=? 0) eqn:Hmin; cbn [orb].
  - apply Z.leb_le in Hmin.
    replace (Z.to_nat (Z.min a_len b_len)) with O by lia. reflexivity.
  - apply Z.leb_gt in Hmin.
    destruct (top_nibble a =? top_nibble b) eqn:Htop.
    + apply Z.eqb_eq in Htop. apply common_nibble_prefix_loop_equal, Htop.
    + apply Z.eqb_neq in Htop.
      destruct (Z.to_nat (Z.min a_len b_len)) as [|todo] eqn:Hn; [lia|].
      rewrite common_nibble_prefix_loop_differ by exact Htop. reflexivity.
Qed.

(** C3 (fails on the code).  For the two-nibble paths [1,2] and [1,3] the
    function returns the length 2, although the nibbles at position 1
    differ (2 against 3): the loop compares the first nibble of [a] and [b]
    at every iteration. *)
Theorem common_nibble_prefix_overshoots :
  let a := 0x12 * 2 ^ 248 in
  let b := 0x13 * 2 ^ 248 in
  snd (common_nibble_prefix a b 2 2) = 2
  /\ nibble_at a 1 = 2 /\ nibble_at b 1 = 3
  /\ ~ common_prefix_correct a b 2 2 (snd (common_nibble_prefix a b 2 2)).
Proof.
  intros a b.
  assert (HL : snd (common_nibble_prefix a b 2 2) = 2)
    by (vm_compute; reflexivity).
  assert (Ha : nibble_at a 1 = 2) by (vm_compute; reflexivity).
  assert (Hb : nibble_at b 1 = 3) by (vm_compute; reflexivity).
  repeat split; try assumption.
  rewrite HL. intros (_ & Heq & _).
  specialize (Heq 1 ltac:(lia)). rewrite Ha, Hb in Heq. discriminate.
Qed.

(** *** The padding of decoded paths *)

Lemma int_from_bytes_snoc (b : bytes) (x : byte) :
  int_from_bytes (b ++ [x]) = int_from_bytes b * 256 + byte_val x.
Proof. unfold int_from_bytes. rewrite fold_left_app. reflexivity. Qed.

Lemma ljust_ends_in_space (b : bytes) (k : nat) :
  (length b + S k = 32)%nat ->
  ljust b 32 = (b ++ repeat x20 k) ++ [x20].
Proof.
  intros H. unfold ljust.
  replace (32 - length b)%nat with (S k) by lia.
  cbn [repeat]. rewrite repeat_cons, app_assoc. reflexivity.
Qed.

(** A path of fewer than 32 bytes is padded: the decoded word ends in the
    byte 0x20. *)
Lemma padded_low_byte (b : bytes) :
  (length b < 32)%nat -> int_from_bytes (ljust b 32) mod 256 = 0x20.
Proof.
  intros H.
  rewrite (ljust_ends_in_space b (31 - length b)) by lia.
  rewrite int_from_bytes_snoc. change (byte_val x20) with 32.
  rewrite Z.add_comm, Z.mod_add by lia. reflexivity.
Qed.

(** With at least two bytes of padding the word ends in 0x2020. *)
Lemma padded_low_word (b : bytes) :
  (length b < 31)%nat -> int_from_bytes (ljust b 32) mod 65536 = 0x2020.
Proof.
  intros H.
  rewrite (ljust_ends_in_space b (31 - length b)) by lia.
  rewrite int_from_bytes_snoc.
  replace (31 - length b)%nat with (S (30 - length b)) by lia.
  cbn [repeat]. rewrite repeat_cons, app_assoc, int_from_bytes_snoc.
  change (byte_val x20) with 32.
  Z.to_euclidean_division_equations. lia.
Qed.

Lemma u256_lshift_low_byte (x s : Z) :
  8 <= s -> u256_lshift x s mod 256 = 0.
Proof.
  intros H. unfold u256_lshift, U256_MASK.
  change (2 ^ 256 - 1) with (Z.ones 256).
  rewrite Z.land_ones by lia.
  rewrite Z.shiftl_mul_pow2 by lia.
  replace (x * 2 ^ s) with (x * 2 ^ (s - 8) * 256).
  - change (2 ^ 256) with (2 ^ 248 * 256).
    rewrite Z.mul_mod_distr_r by lia.
    apply Z.mod_mul. lia.
  - replace s with (s - 8 + 8) at 2 by lia.
    rewrite Z.pow_add_r by lia. change (2 ^ 8) with 256. lia.
Qed.

Lemma lor_low_byte (a b : Z) :
  Z.lor a b mod 256 = Z.lor (a mod 256) (b mod 256).
Proof.
  change 256 with (2 ^ 8). rewrite <- !Z.land_ones by lia.
  apply Z.land_lor_distr_l.
Qed.

Lemma land_low_byte (a b : Z) :
  b mod 256 = 0 -> Z.land a b mod 256 = 0.
Proof.
  change 256 with (2 ^ 8). rewrite <- !Z.land_ones by lia.
  intros H. rewrite <- Z.land_assoc, H. apply Z.land_0_r.
Qed.

(** Every path [decode_path] returns for an encoded path of fewer than 64
    nibbles has a non-zero lowest byte, which lies outside the path
    nibbles: the fill byte 0x20 of [ljust], or its upper half 0x02 after
    the shift of the odd case. *)
Lemma decoded_path_is_padded (encoded_path : bytes) (terminating : bool)
  (p n : Z) :
  encoded_path <> [] ->
  decode_path encoded_path = Returns (terminating, p, n) ->
  n < 64 ->
  0 <= n <= 62 /\ (p mod 256 = 0x20 \/ p mod 256 = 0x02).
Proof.
  intros Hne Hdec Hn.
  destruct encoded_path as [|b0 rest]; [contradiction|].
  unfold decode_path in Hdec.
  apply bind_returns in Hdec. destruct Hdec as (u1 & _ & Hdec).
  apply bind_returns in Hdec. destruct Hdec as (u2 & _ & Hdec).
  apply bind_returns in Hdec. destruct Hdec as (q & Hq & Hdec).
  unfold uint256 in Hq.
  destruct ((0 <=? int_from_bytes (ljust rest 32))
            && (int_from_bytes (ljust rest 32) <=? U256_MASK));
    [|discriminate].
  injection Hq as Hq. subst q.
  unfold len in Hdec.
  destruct (negb (Z.land (Z.shiftr (Z.land (byte_val b0) 0xF0) 4) 1 =? 0)).
  - apply bind_returns in Hdec. destruct Hdec as (u3 & Hodd & Hdec).
    apply assert_returns in Hodd. apply Z.ltb_lt in Hodd.
    injection Hdec as _ Hp Hlen.
    split; [lia|]. right. subst p.
    rewrite lor_low_byte, u256_lshift_low_byte by lia.
    rewrite Z.lor_0_r.
    pose proof (padded_low_word rest ltac:(lia)) as Hw.
    rewrite Z.shiftr_div_pow2 by lia. change (2 ^ 4) with 16.
    revert Hw. generalize (int_from_bytes (ljust rest 32)). intros q Hw.
    Z.to_euclidean_division_equations. lia.
  - injection Hdec as _ Hp Hlen.
    split; [lia|]. left. subst p.
    apply padded_low_byte. lia.
Qed.

(** ** The engine *)

Section EngineProperties.

Variable rlp_decode_list : bytes -> result (list bytes).
Variable rlp_encode_list : list bytes -> bytes.
Variable mpt_hash : bytes -> bytes.

Local Abbreviation reader := (reader_step_gen rlp_decode_list mpt_hash).
Local Abbreviation writer := (write_step rlp_decode_list rlp_encode_list mpt_hash).
Local Abbreviation dispatch := (next_mpt_step rlp_decode_list mpt_hash).

Ltac reader_start Hlast :=
  unfold reader_step_gen; rewrite Hlast;
  cbn [bind mpt_current_root set_mpt_parent_node_step].

Ltac writer_start Hlast Hparent :=
  unfold write_step, wbind, lift, trie_get_node; rewrite Hlast, Hparent.

Lemma reader_authenticates (trie : MPT) (trac : StepsTrace) (last : Step)
  (next : option Step) :
  trace_last trac = Returns last ->
  reader_fetches last = true ->
  reader trie trac = Returns next ->
  exists data,
    get_node trie (mpt_current_root last) = Returns data
    /\ mpt_hash data = mpt_current_root last.
Proof.
  intros Hlast Hfetch. unfold reader_fetches in Hfetch.
  reader_start Hlast.
  destruct (mpt_lookup_key_nibbles last =? mpt_lookup_nibble_depth last);
    cbn [negb orb] in Hfetch.
  - apply negb_true_iff in Hfetch. rewrite Hfetch.
    destruct (get_node trie (mpt_current_root last)) as [data|e];
      cbn [bind]; [|discriminate].
    destruct (bytes_eqb (mpt_hash data) (mpt_current_root last)) eqn:Hauth;
      cbn [assert bind]; [|discriminate].
    intros _. exists data. split; [reflexivity|].
    apply bytes_eqb_eq. exact Hauth.
  - destruct (get_node trie (mpt_current_root last)) as [data|e];
      cbn [bind]; [|discriminate].
    destruct (bytes_eqb (mpt_hash data) (mpt_current_root last)) eqn:Hauth;
      cbn [assert bind]; [|discriminate].
    intros _. exists data. split; [reflexivity|].
    apply bytes_eqb_eq. exact Hauth.
Qed.

Lemma reader_rejects_forged_node (trie : MPT) (trac : StepsTrace)
  (last : Step) (data : bytes) :
  trace_last trac = Returns last ->
  reader_fetches last = true ->
  get_node trie (mpt_current_root last) = Returns data ->
  mpt_hash data <> mpt_current_root last ->
  reader trie trac = Raises AssertionError.
Proof.
  intros Hlast Hfetch Hget Hneq. unfold reader_fetches in Hfetch.
  reader_start Hlast. rewrite Hget. cbn [bind].
  rewrite (bytes_eqb_neq _ _ Hneq). cbn [assert bind].
  destruct (mpt_lookup_key_nibbles last =? mpt_lookup_nibble_depth last);
    cbn [negb orb] in Hfetch; [|reflexivity].
  apply negb_true_iff in Hfetch. rewrite Hfetch. reflexivity.
Qed.

Lemma writer_authenticates (trie trie' : MPT) (trac : StepsTrace)
  (last parent : Step) (next : option Step) :
  trace_last trac = Returns last ->
  trace_by_index trac (mpt_parent_node_step last) = Returns parent ->
  writer trac trie = (Returns next, trie') ->
  exists data,
    get_node trie (mpt_current_root parent) = Returns data
    /\ mpt_hash data = mpt_current_root parent.
Proof.
  intros Hlast Hparent. writer_start Hlast Hparent.
  destruct (get_node trie (mpt_current_root parent)) as [data|e];
    [|discriminate].
  destruct (bytes_eqb (mpt_hash data) (mpt_current_root parent)) eqn:Hauth;
    cbn [assert]; [|discriminate].
  intros _. exists data. split; [reflexivity|].
  apply bytes_eqb_eq. exact Hauth.
Qed.

Lemma writer_rejects_forged_node (trie : MPT) (trac : StepsTrace)
  (last parent : Step) (data : bytes) :
  trace_last trac = Returns last ->
  trace_by_index trac (mpt_parent_node_step last) = Returns parent ->
  get_node trie (mpt_current_root parent) = Returns data ->
  mpt_hash data <> mpt_current_root parent ->
  writer trac trie = (Raises AssertionError, trie).
Proof.
  intros Hlast Hparent Hget Hneq. writer_start Hlast Hparent.
  rewrite Hget, (bytes_eqb_neq _ _ Hneq). reflexivity.
Qed.

(** C1.  Every node fetched from the store during a read or write step is
    authenticated before use.  Whenever a read step calls [get_node] it
    produces a result only if the hash of the fetched bytes equals the
    step's [current_root], and it aborts on fetched bytes with another
    hash; the write step produces a result only if the hash of the bytes
    fetched for the parent step equals the parent step's [current_root],
    and aborts otherwise, leaving the store as it was.  An aborted step has
    no successor, so nothing decoded from an unauthenticated node reaches
    one. *)
Theorem fetched_nodes_are_authenticated (trie : MPT) (trac : StepsTrace)
  (last : Step) :
  trace_last trac = Returns last ->
  (reader_fetches last = true ->
     (forall next,
        reader trie trac = Returns next ->
        exists data,
          get_node trie (mpt_current_root last) = Returns data
          /\ mpt_hash data = mpt_current_root last)
     /\ (forall data,
           get_node trie (mpt_current_root last) = Returns data ->
           mpt_hash data <> mpt_current_root last ->
           reader trie trac = Raises AssertionError))
  /\ (forall parent,
        trace_by_index trac (mpt_parent_node_step last) = Returns parent ->
        (forall next trie',
           writer trac trie = (Returns next, trie') ->
           exists data,
             get_node trie (mpt_current_root parent) = Returns data
             /\ mpt_hash data = mpt_current_root parent)
        /\ (forall data,
              get_node trie (mpt_current_root parent) = Returns data ->
              mpt_hash data <> mpt_current_root parent ->
              writer trac trie = (Raises AssertionError, trie))).
Proof.
  intros Hlast. split.
  - intros Hfetch. split.
    + intros next. apply reader_authenticates; assumption.
    + intros data. apply reader_rejects_forged_node; assumption.
  - intros parent Hparent. split.
    + intros next trie'. apply writer_authenticates with last; assumption.
    + intros data. apply writer_rejects_forged_node with last; assumption.
Qed.

Lemma arrival_outcome_holds (trac : StepsTrace) (last : Step) (value : bytes) :
  arrival_outcome trac last value
    (set_mpt_mode (mpt_mode_on_finish last)
       (set_mpt_value value
          (if bytes_eqb value []
           then set_mpt_fail_lookup 10
                  (set_mpt_parent_node_step (trace_length trac - 1) last)
           else set_mpt_parent_node_step (trace_length trac - 1) last))).
Proof.
  unfold arrival_outcome.
  destruct (bytes_eqb value []) eqn:Hempty; cbn;
    repeat split; try reflexivity; intros H; try contradiction.
  - apply bytes_eqb_eq in Hempty. contradiction.
  - subst value. discriminate.
Qed.

(** C7.  A read step whose depth equals [lookup_key_nibbles] resolves
    [current_root] as the found value: an inline root (shorter than 32
    bytes) is the value itself and no fetch takes place, whatever the store
    holds; a 32-byte reference is fetched once and authenticated against
    [current_root], the step aborting when the store has no such node or
    the hash differs.  The successor carries the value in its [value]
    field, has [fail_lookup = 10] when the value is empty, and its mode is
    [mode_on_finish]. *)
Theorem arrival_resolves_value (trie : MPT) (trac : StepsTrace) (last : Step) :
  trace_last trac = Returns last ->
  mpt_lookup_nibble_depth last = mpt_lookup_key_nibbles last ->
  (len (mpt_current_root last) < 32 ->
     exists next,
       reader trie trac = Returns (Some next)
       /\ arrival_outcome trac last (mpt_current_root last) next)
  /\ (32 <= len (mpt_current_root last) ->
      (forall value,
         get_node trie (mpt_current_root last) = Returns value ->
         mpt_hash value = mpt_current_root last ->
         exists next,
           reader trie trac = Returns (Some next)
           /\ arrival_outcome trac last value next)
      /\ (forall value,
            get_node trie (mpt_current_root last) = Returns value ->
            mpt_hash value <> mpt_current_root last ->
            reader trie trac = Raises AssertionError)
      /\ (forall e,
            get_node trie (mpt_current_root last) = Raises e ->
            reader trie trac = Raises e)).
Proof.
  intros Hlast Hdepth.
  assert (Harrived :
    (mpt_lookup_key_nibbles last =? mpt_lookup_nibble_depth last) = true)
    by (apply Z.eqb_eq; congruence).
  split.
  - intros Hinline. apply Z.ltb_lt in Hinline.
    reader_start Hlast. rewrite Harrived, Hinline. cbn [bind].
    eexists. split; [reflexivity|]. apply arrival_outcome_holds.
  - intros Href. apply Z.ltb_ge in Href. repeat split.
    + intros value Hget Hauth.
      reader_start Hlast. rewrite Harrived, Href, Hget. cbn [bind].
      rewrite Hauth, bytes_eqb_refl. cbn [assert bind].
      eexists. split; [reflexivity|]. apply arrival_outcome_holds.
    + intros value Hget Hneq.
      reader_start Hlast. rewrite Harrived, Href, Hget. cbn [bind].
      rewrite (bytes_eqb_neq _ _ Hneq). reflexivity.
    + intros e Hget.
      reader_start Hlast. rewrite Harrived, Href, Hget. reflexivity.
Qed.

(** The write step passes [write_root] through for every parent node that
    decodes to a non-empty list, whatever its shape, and stores nothing:
    the guard in front of the rewrite cases reads [!= 0]. *)
Lemma write_step_passes_through (trie : MPT) (trac : StepsTrace)
  (last parent : Step) (data : bytes) (items : list bytes) :
  trace_last trac = Returns last ->
  trace_by_index trac (mpt_parent_node_step last) = Returns parent ->
  get_node trie (mpt_current_root parent) = Returns data ->
  mpt_hash data = mpt_current_root parent ->
  rlp_decode_list data = Returns items ->
  items <> [] ->
  writer trac trie
  = (Returns (Some (set_mpt_write_root (mpt_write_root last) parent)), trie).
Proof.
  intros Hlast Hparent Hget Hauth Hdec Hne. writer_start Hlast Hparent.
  rewrite Hget, Hauth, bytes_eqb_refl. cbn [assert]. rewrite Hdec.
  destruct items as [|x items]; [contradiction|]. reflexivity.
Qed.

(** The dispatcher raises in the RETURNING mode: [next] is read before it
    is assigned. *)
Lemma returning_raises (trac : StepsTrace) (last : Step) :
  trace_last trac = Returns last ->
  mpt_mode last = 0 ->
  dispatch trac = Raises UnboundLocalError.
Proof.
  intros Hlast Hmode. unfold next_mpt_step.
  rewrite Hlast. cbn [bind]. rewrite Hmode. reflexivity.
Qed.

(** A branch node below the key depth is refused as soon as the new depth
    exceeds 32 nibbles. *)
Lemma branch_descent_refused_above_32 (trie : MPT) (trac : StepsTrace)
  (last : Step) (data : bytes) (items : list bytes) :
  trace_last trac = Returns last ->
  mpt_lookup_key_nibbles last <> mpt_lookup_nibble_depth last ->
  get_node trie (mpt_current_root last) = Returns data ->
  mpt_hash data = mpt_current_root last ->
  rlp_decode_list data = Returns items ->
  len items = 17 ->
  32 < mpt_lookup_nibble_depth last + 1 ->
  reader trie trac = Raises AssertionError.
Proof.
  intros Hlast Hne Hget Hauth Hdec Hlen Hdepth.
  reader_start Hlast.
  apply Z.eqb_neq in Hne. rewrite Hne, Hget. cbn [bind].
  rewrite Hauth, bytes_eqb_refl. cbn [assert bind]. rewrite Hdec.
  cbn [bind]. rewrite Hlen.
  change (17 =? 0) with false. change (17 =? 2) with false.
  change (17 =? 17) with true. cbn iota.
  rewrite Z.eqb_sym, Hne.
  replace (mpt_lookup_nibble_depth last + 1 <=? 32) with false;
    [reflexivity|].
  symmetry. apply Z.leb_gt. exact Hdepth.
Qed.

Lemma nibble_mask_computes (n : Z) :
  0 <= n < 64 ->
  u256_sub (u256_lshift 1 (n * 4)) 1 = Returns (2 ^ (n * 4) - 1).
Proof.
  intros Hn.
  assert (Hpow : 0 < 2 ^ (n * 4) < 2 ^ 256).
  { split; [apply Z.pow_pos_nonneg; lia|].
    apply Z.pow_lt_mono_r; lia. }
  assert (Hshift : u256_lshift 1 (n * 4) = 2 ^ (n * 4)).
  { unfold u256_lshift, U256_MASK.
    change (2 ^ 256 - 1) with (Z.ones 256).
    rewrite Z.land_ones, Z.shiftl_mul_pow2, Z.mul_1_l by lia.
    apply Z.mod_small. lia. }
  unfold u256_sub, uint256, U256_MASK. rewrite Hshift.
  replace (0 <=? 2 ^ (n * 4) - 1) with true by (symmetry; apply Z.leb_le; lia).
  replace (2 ^ (n * 4) - 1 <=? 2 ^ 256 - 1) with true
    by (symmetry; apply Z.leb_le; lia).
  reflexivity.
Qed.

Lemma nonempty_len_geb (b : bytes) : b <> [] -> (len b >=? 1) = true.
Proof.
  destruct b as [|x b]; [contradiction|]. intros _.
  unfold len. cbn [length]. rewrite Z.geb_leb. apply Z.leb_le. lia.
Qed.

(** An extension node never lets the read engine descend: for a key of at
    most 64 nibbles the step ends the lookup with [fail_lookup] 5 or 6,
    whatever the nibbles of the extension are.  The comparison
    [key_part != path_u256] sets the padded word of [decode_path] against
    a masked key whose lowest byte is zero. *)
Lemma extension_step_never_descends (trie : MPT) (trac : StepsTrace)
  (last : Step) (data encoded_path child : bytes) (p n : Z) :
  trace_last trac = Returns last ->
  mpt_lookup_key_nibbles last <> mpt_lookup_nibble_depth last ->
  get_node trie (mpt_current_root last) = Returns data ->
  mpt_hash data = mpt_current_root last ->
  rlp_decode_list data = Returns [encoded_path; child] ->
  encoded_path <> [] ->
  decode_path encoded_path = Returns (false, p, n) ->
  0 <= mpt_lookup_nibble_depth last ->
  mpt_lookup_key_nibbles last <= 64 ->
  exists next,
    reader trie trac = Returns (Some next)
    /\ (mpt_fail_lookup next = 5 \/ mpt_fail_lookup next = 6)
    /\ mpt_mode next = mpt_mode_on_finish last
    /\ mpt_current_root next = mpt_current_root last
    /\ mpt_lookup_nibble_depth next = mpt_lookup_nibble_depth last.
Proof.
  intros Hlast Hne Hget Hauth Hdec Hnonempty Hpath Hdepth Hkey.
  reader_start Hlast.
  apply Z.eqb_neq in Hne. rewrite Hne, Hget. cbn [bind].
  rewrite Hauth, bytes_eqb_refl. cbn [assert bind]. rewrite Hdec.
  cbn [bind]. change (len [encoded_path; child]) with 2.
  change (2 =? 0) with false. change (2 =? 2) with true. cbv iota.
  change (getitem [encoded_path; child] 0) with (Returns encoded_path).
  cbn [bind]. rewrite (nonempty_len_geb _ Hnonempty). cbn [assert bind].
  rewrite Hpath. cbn [bind]. cbv iota beta.
  destruct (mpt_lookup_nibble_depth last + n >=? mpt_lookup_key_nibbles last)
    eqn:Hlong.
  - eexists. split; [reflexivity|]. cbn. auto.
  - rewrite Z.geb_leb in Hlong. apply Z.leb_gt in Hlong.
    destruct (decoded_path_is_padded _ _ _ _ Hnonempty Hpath ltac:(lia))
      as [Hn Hpad].
    rewrite nibble_mask_computes by lia. cbn [bind].
    match goal with
    | |- context [negb (?key_part =? p)] =>
        assert (Hlow : key_part mod 256 = 0)
          by (apply land_low_byte, u256_lshift_low_byte; lia);
        replace (key_part =? p) with false
          by (symmetry; apply Z.eqb_neq; intros Heq; rewrite Heq in Hlow;
              destruct Hpad as [Hpad|Hpad]; rewrite Hpad in Hlow;
              discriminate)
    end.
    cbn [negb]. eexists. split; [reflexivity|]. cbn. auto.
Qed.

(** The leaf dispatch of the read engine as the code performs it: on the
    length [n] and the word [p] that [decode_path] returns for the leaf
    path, [p] being compared as a whole 256-bit word with the key shifted
    left by the nibbles already read. *)
Lemma reader_leaf_dispatch (trie : MPT) (trac : StepsTrace) (last : Step)
  (data encoded_path value : bytes) (p n : Z) :
  trace_last trac = Returns last ->
  mpt_lookup_key_nibbles last <> mpt_lookup_nibble_depth last ->
  get_node trie (mpt_current_root last) = Returns data ->
  mpt_hash data = mpt_current_root last ->
  rlp_decode_list data = Returns [encoded_path; value] ->
  encoded_path <> [] ->
  decode_path encoded_path = Returns (true, p, n) ->
  let key_remainder :=
    u256_lshift (mpt_lookup_key last) (mpt_lookup_nibble_depth last * 4) in
  let new_depth := mpt_lookup_nibble_depth last + n in
  exists next,
    reader trie trac = Returns (Some next)
    /\ (new_depth = mpt_lookup_key_nibbles last -> key_remainder = p ->
        mpt_mode next = mpt_mode last
        /\ mpt_fail_lookup next = mpt_fail_lookup last
        /\ mpt_current_root next = value
        /\ mpt_lookup_nibble_depth next = new_depth)
    /\ (new_depth = mpt_lookup_key_nibbles last -> key_remainder <> p ->
        mpt_fail_lookup next = 2
        /\ mpt_mode next = mpt_mode_on_finish last)
    /\ (new_depth < mpt_lookup_key_nibbles last ->
        mpt_fail_lookup next = 3
        /\ mpt_mode next = mpt_mode_on_finish last)
    /\ (new_depth > mpt_lookup_key_nibbles last ->
        mpt_fail_lookup next = 4
        /\ mpt_mode next = mpt_mode_on_finish last).
Proof.
  intros Hlast Hne Hget Hauth Hdec Hnonempty Hpath key_remainder new_depth.
  reader_start Hlast.
  apply Z.eqb_neq in Hne. rewrite Hne, Hget. cbn [bind].
  rewrite Hauth, bytes_eqb_refl. cbn [assert bind]. rewrite Hdec.
  cbn [bind]. change (len [encoded_path; value]) with 2.
  change (2 =? 0) with false. change (2 =? 2) with true. cbv iota.
  change (getitem [encoded_path; value] 0) with (Returns encoded_path).
  cbn [bind]. rewrite (nonempty_len_geb _ Hnonempty). cbn [assert bind].
  rewrite Hpath. cbn [bind]. cbv iota beta.
  fold key_remainder new_depth.
  change (getitem [encoded_path; value] 1) with (Returns value).
  cbn [bind].
  destruct (new_depth =? mpt_lookup_key_nibbles last) eqn:Heq.
  - apply Z.eqb_eq in Heq.
    destruct (key_remainder =? p) eqn:Hword.
    + apply Z.eqb_eq in Hword.
      eexists. split; [reflexivity|]. cbn.
      repeat split; try reflexivity; intros; try contradiction; lia.
    + apply Z.eqb_neq in Hword.
      eexists. split; [reflexivity|]. cbn.
      repeat split; try reflexivity; intros; try contradiction; lia.
  - apply Z.eqb_neq in Heq.
    destruct (new_depth <? mpt_lookup_key_nibbles last) eqn:Hlt.
    + apply Z.ltb_lt in Hlt.
      eexists. split; [reflexivity|]. cbn.
      repeat split; try reflexivity; intros; try contradiction; lia.
    + apply Z.ltb_ge in Hlt.
      replace (new_depth >? mpt_lookup_key_nibbles last) with true
        by (symmetry; rewrite Z.gtb_ltb; apply Z.ltb_lt; lia).
      eexists. split; [reflexivity|]. cbn.
      repeat split; try reflexivity; intros; try contradiction; lia.
Qed.

End EngineProperties.

(** ** Closed instances *)

Lemma fetched_nodes_are_authenticated_witness :
  ex_reader ex_forged_store (ex_trace [ex_read_forged]) = Raises AssertionError
  /\ ex_writer (ex_trace [ex_read_forged]) ex_forged_store
     = (Raises AssertionError, ex_forged_store).
Proof.
  destruct (fetched_nodes_are_authenticated
              ex_rlp_decode_list ex_rlp_encode_list ex_mpt_hash
              ex_forged_store (ex_trace [ex_read_forged]) ex_read_forged
              eq_refl) as [Hread Hwrite].
  split.
  - apply (proj2 (Hread eq_refl) [x01]); [reflexivity|].
    vm_compute. discriminate.
  - apply (proj2 (Hwrite ex_read_forged eq_refl) [x01]); [reflexivity|].
    vm_compute. discriminate.
Defined.

Lemma arrival_resolves_value_witness :
  (exists next,
     ex_reader [] (ex_trace [ex_arrived_inline]) = Returns (Some next)
     /\ mpt_value next = ex_hello /\ mpt_mode next = 0)
  /\ (exists next,
        ex_reader (ex_store [ex_hello]) (ex_trace [ex_arrived_ref])
        = Returns (Some next)
        /\ mpt_value next = ex_hello /\ mpt_mode next = 0).
Proof.
  split.
  - destruct (arrival_resolves_value ex_rlp_decode_list ex_mpt_hash
                [] (ex_trace [ex_arrived_inline]) ex_arrived_inline
                eq_refl eq_refl) as [Hinline _].
    destruct (Hinline eq_refl) as (next & Hrun & Hvalue & Hmode & _).
    exists next. repeat split; assumption.
  - destruct (arrival_resolves_value ex_rlp_decode_list ex_mpt_hash
                (ex_store [ex_hello]) (ex_trace [ex_arrived_ref])
                ex_arrived_ref eq_refl eq_refl) as [_ Href].
    assert (Hlen : 32 <= len (mpt_current_root ex_arrived_ref))
      by (vm_compute; discriminate).
    destruct (Href Hlen) as [Hok _].
    destruct (Hok ex_hello eq_refl eq_refl)
      as (next & Hrun & Hvalue & Hmode & _).
    exists next. repeat split; assumption.
Defined.

(** C4 (fails on the code).  The parent node is a leaf whose 64-nibble path
    is the whole lookup key, so its depth reaches [lookup_key_nibbles] and
    its path equals the key.  The write step returns the parent step with
    the incoming [write_root] copied into it, not the hash of the leaf
    re-encoded with the new value, and the store is left as it was: nothing
    is persisted. *)
Theorem write_step_skips_matching_leaf :
  let path := x20 :: repeat xab 32 in
  let trac := ex_trace [ex_write_parent; ex_write_last] in
  let trie := ex_store [ex_leaf64] in
  ex_rlp_decode_list ex_leaf64 = Returns [path; ex_old]
  /\ decode_path path = Returns (true, mpt_lookup_key ex_write_parent, 64)
  /\ mpt_lookup_nibble_depth ex_write_parent + 64
     = mpt_lookup_key_nibbles ex_write_parent
  /\ ex_writer trac trie
     = (Returns (Some (set_mpt_write_root ex_new ex_write_parent)), trie)
  /\ ex_new <> ex_mpt_hash (ex_rlp_encode_list [path; ex_new]).
Proof.
  intros path trac trie.
  split; [vm_compute; reflexivity|].
  split; [vm_compute; reflexivity|].
  split; [reflexivity|].
  split.
  - apply (write_step_passes_through ex_rlp_decode_list ex_rlp_encode_list
             ex_mpt_hash trie trac ex_write_last ex_write_parent ex_leaf64
             [path; ex_old]);
      try (vm_compute; reflexivity).
    discriminate.
  - vm_compute. discriminate.
Qed.

(** C5 (fails on the code).  Scenario B of the specification: the current
    node is the leaf with the path [a, b, c], the key is [0xabc] with three
    nibbles, nothing of it read yet.  The leaf path has the length of the
    unread key suffix and the same three nibbles, yet the successor has
    [fail_lookup = 2], mode [mode_on_finish] and an unchanged
    [current_root]: the decoded path word carries the 0x20 padding of
    [decode_path] below its three nibbles, and the engine compares whole
    words. *)
Theorem reader_rejects_matching_leaf :
  ex_rlp_decode_list ex_leaf_abc = Returns [[x3a; xbc]; ex_hello]
  /\ (exists p,
        decode_path [x3a; xbc] = Returns (true, p, 3)
        /\ nibble_at p 0 = nibble_at ex_key_abc 0
        /\ nibble_at p 1 = nibble_at ex_key_abc 1
        /\ nibble_at p 2 = nibble_at ex_key_abc 2)
  /\ mpt_lookup_nibble_depth ex_read_abc + 3
     = mpt_lookup_key_nibbles ex_read_abc
  /\ (exists next,
        ex_reader (ex_store [ex_leaf_abc]) (ex_trace [ex_read_abc])
        = Returns (Some next)
        /\ mpt_fail_lookup next = 2
        /\ mpt_mode next = mpt_mode_on_finish ex_read_abc
        /\ mpt_current_root next = mpt_current_root ex_read_abc
        /\ mpt_current_root next <> ex_hello).
Proof.
  split; [vm_compute; reflexivity|]. split.
  - eexists. split; [vm_compute; reflexivity|].
    repeat split; vm_compute; reflexivity.
  - split; [reflexivity|].
    eexists. split; [vm_compute; reflexivity|].
    repeat split; try (vm_compute; reflexivity).
    vm_compute. discriminate.
Qed.

(** C6 (fails on the code).  The current node is the extension over the
    nibbles [a, b]; the key [0xab12] has four nibbles, none read yet, so
    the extension stays below the key length and its nibbles are the first
    two key nibbles.  The successor nevertheless has [fail_lookup = 6] and
    neither the child as [current_root] nor an advanced depth, for the same
    reason as in the leaf case: the 0x20 padding of [decode_path]. *)
Theorem reader_rejects_matching_extension :
  ex_rlp_decode_list ex_ext_ab = Returns [[x00; xab]; repeat x11 32]
  /\ (exists p,
        decode_path [x00; xab] = Returns (false, p, 2)
        /\ nibble_at p 0 = nibble_at ex_key_ab12 0
        /\ nibble_at p 1 = nibble_at ex_key_ab12 1)
  /\ mpt_lookup_nibble_depth ex_read_ab12 + 2
     < mpt_lookup_key_nibbles ex_read_ab12
  /\ (exists next,
        ex_reader (ex_store [ex_ext_ab]) (ex_trace [ex_read_ab12])
        = Returns (Some next)
        /\ mpt_fail_lookup next = 6
        /\ mpt_mode next = mpt_mode_on_finish ex_read_ab12
        /\ mpt_current_root next = mpt_current_root ex_read_ab12
        /\ mpt_lookup_nibble_depth next = 0).
Proof.
  split; [vm_compute; reflexivity|]. split.
  - eexists. split; [vm_compute; reflexivity|].
    repeat split; vm_compute; reflexivity.
  - split; [reflexivity|].
    eexists. split; [vm_compute; reflexivity|].
    repeat split; vm_compute; reflexivity.
Qed.

(** C8 (fails on the code).  With a 17-item branch as current node and 32
    of the 64 key nibbles read, the new depth 33 is within 64, but the step
    aborts: the assertion in the source bounds the new depth by 32.  One
    nibble earlier, at depth 31, the step descends and the depth becomes
    32. *)
Theorem branch_descent_aborts_at_depth_32 :
  (exists items,
     ex_rlp_decode_list ex_branch = Returns items /\ len items = 17)
  /\ ex_reader (ex_store [ex_branch]) (ex_trace [ex_read_branch 32])
     = Raises AssertionError
  /\ (exists next,
        ex_reader (ex_store [ex_branch]) (ex_trace [ex_read_branch 31])
        = Returns (Some next)
        /\ mpt_lookup_nibble_depth next = 32).
Proof.
  split.
  - eexists. split; vm_compute; reflexivity.
  - split.
    + apply (branch_descent_refused_above_32 ex_rlp_decode_list ex_mpt_hash
               (ex_store [ex_branch]) (ex_trace [ex_read_branch 32])
               (ex_read_branch 32) ex_branch
               (map (fun b => [b])
                  [x30; x31; x32; x33; x34; x35; x36; x37;
                   x38; x39; x3a; x3b; x3c; x3d; x3e; x3f] ++ [[]]));
        try (vm_compute; reflexivity).
      vm_compute. discriminate.
    + eexists. split; vm_compute; reflexivity.
Qed.

(** C9 (fails on the code).  The last step of the trace is in RETURNING
    mode and names the step at index 0 as the one to return to; the
    dispatcher raises [UnboundLocalError] instead of producing a copy of
    that step. *)
Theorem returning_dispatch_raises :
  mpt_mode ex_returning = 0
  /\ trace_by_index (ex_trace [ex_caller; ex_returning])
       (return_to_step ex_returning) = Returns ex_caller
  /\ ex_next_mpt_step (ex_trace [ex_caller; ex_returning])
     = Raises UnboundLocalError.
Proof.
  split; [reflexivity|]. split; [reflexivity|].
  apply (returning_raises ex_rlp_decode_list ex_mpt_hash
           (ex_trace [ex_caller; ex_returning]) ex_returning);
    reflexivity.
Qed.

(** The general lemmas at concrete steps: the extension over [a], [b] ends
    the lookup of [0xab12], and the 64-nibble leaf, whose decoded path
    carries no padding, is the one leaf the read engine descends into. *)
Example extension_step_never_descends_ab12 :
  exists next,
    ex_reader (ex_store [ex_ext_ab]) (ex_trace [ex_read_ab12])
    = Returns (Some next)
    /\ (mpt_fail_lookup next = 5 \/ mpt_fail_lookup next = 6).
Proof.
  destruct (extension_step_never_descends ex_rlp_decode_list ex_mpt_hash
              (ex_store [ex_ext_ab]) (ex_trace [ex_read_ab12]) ex_read_ab12
              ex_ext_ab [x00; xab] (repeat x11 32)
              0xab20202020202020202020202020202020202020202020202020202020202020
              2)
    as (next & Hrun & Hfail & _);
    try (vm_compute; reflexivity); try (vm_compute; discriminate).
  exists next. split; assumption.
Qed.

Example reader_leaf_dispatch_key64 :
  exists next,
    ex_reader (ex_store [ex_leaf64]) (ex_trace [ex_write_parent])
    = Returns (Some next)
    /\ mpt_mode next = 1
    /\ mpt_current_root next = ex_old
    /\ mpt_lookup_nibble_depth next = 64.
Proof.
  destruct (reader_leaf_dispatch ex_rlp_decode_list ex_mpt_hash
              (ex_store [ex_leaf64]) (ex_trace [ex_write_parent])
              ex_write_parent ex_leaf64 (x20 :: repeat xab 32) ex_old
              ex_key64 64)
    as (next & Hrun & Hmatch & _);
    try (vm_compute; reflexivity); try (vm_compute; discriminate).
  destruct Hmatch as (Hmode & _ & Hroot & Hdepth);
    try (vm_compute; reflexivity).
  exists next. repeat split; assumption.
Qed.

(** * Further properties of the path codec *)

Lemma byte_val_range (b : byte) : 0 <= byte_val b < 256.
Proof.
  unfold byte_val. pose proof (Byte.to_N_bounded b). lia.
Qed.

Lemma byte_val_of_Z (z : Z) : 0 <= z < 256 -> byte_val (byte_of_Z z) = z.
Proof.
  intros Hz. unfold byte_val, byte_of_Z.
  destruct (Byte.of_N (Z.to_N z)) as [b|] eqn:Hb.
  - apply Byte.to_of_N in Hb. rewrite Hb. lia.
  - pose proof (Byte.to_of_N_option_map (Z.to_N z)) as H.
    rewrite Hb in H. cbn [option_map] in H.
    destruct (Z.to_N z <=? 255)%N eqn:Hle; [discriminate|].
    apply N.leb_gt in Hle. lia.
Qed.

Lemma byte_of_Z_val (b : byte) : byte_of_Z (byte_val b) = b.
Proof.
  unfold byte_of_Z, byte_val. rewrite N2Z.id, Byte.of_to_N. reflexivity.
Qed.

Lemma int_from_bytes_cons_acc (b : bytes) (acc : Z) :
  fold_left (fun a x => a * 256 + byte_val x) b acc
  = acc * 256 ^ len b + int_from_bytes b.
Proof.
  unfold int_from_bytes, len. revert acc.
  induction b as [|x b IH]; intros acc.
  - cbn. lia.
  - cbn [fold_left length]. rewrite IH, (IH (0 * 256 + byte_val x)).
    rewrite Nat2Z.inj_succ, Z.pow_succ_r by lia. lia.
Qed.

Lemma int_from_bytes_range (b : bytes) :
  0 <= int_from_bytes b < 256 ^ len b.
Proof.
  induction b as [|x b IH] using rev_ind.
  - cbn. lia.
  - rewrite int_from_bytes_snoc. unfold len in *.
    rewrite length_app, Nat2Z.inj_add. cbn [length].
    rewrite Z.pow_add_r by lia. change (256 ^ Z.of_nat 1) with 256.
    pose proof (byte_val_range x). nia.
Qed.

Lemma ljust_length (b : bytes) (width : nat) :
  (length b <= width)%nat -> length (ljust b width) = width.
Proof.
  intros H. unfold ljust. rewrite length_app, repeat_length. lia.
Qed.

Lemma padded_is_uint256 (rest : bytes) :
  len rest <= 32 ->
  uint256 (int_from_bytes (ljust rest 32))
  = Returns (int_from_bytes (ljust rest 32)).
Proof.
  intros H. unfold len in H. unfold uint256, U256_MASK.
  pose proof (int_from_bytes_range (ljust rest 32)) as Hr.
  unfold len in Hr. rewrite ljust_length in Hr by lia.
  change (256 ^ Z.of_nat 32) with (2 ^ 256) in Hr.
  replace (0 <=? int_from_bytes (ljust rest 32)) with true
    by (symmetry; apply Z.leb_le; lia).
  replace (int_from_bytes (ljust rest 32) <=? 2 ^ 256 - 1) with true
    by (symmetry; apply Z.leb_le; lia).
  reflexivity.
Qed.

(** The flag bits of the first byte, as [decode_path] extracts them. *)
Lemma flag_terminating (b0 : byte) :
  negb (Z.land (Z.shiftr (Z.land (byte_val b0) 0xF0) 4) 2 =? 0)
  = Z.testbit (byte_val b0) 5.
Proof. destruct b0; reflexivity. Qed.

Lemma flag_odd (b0 : byte) :
  negb (Z.land (Z.shiftr (Z.land (byte_val b0) 0xF0) 4) 1 =? 0)
  = Z.testbit (byte_val b0) 4.
Proof. destruct b0; reflexivity. Qed.

Lemma lor_below_pow2 (a b k : Z) :
  0 <= k -> 0 <= a < 2 ^ k -> 0 <= b < 2 ^ k -> 0 <= Z.lor a b < 2 ^ k.
Proof.
  intros Hk Ha Hb.
  assert (Hnn : 0 <= Z.lor a b) by (apply Z.lor_nonneg; lia).
  split; [exact Hnn|].
  destruct (Z.eq_dec (Z.lor a b) 0) as [Hz|Hz];
    [rewrite Hz; apply Z.pow_pos_nonneg; lia|].
  apply Z.log2_lt_pow2; [lia|].
  rewrite Z.log2_lor by lia.
  apply Z.max_lub_lt.
  - destruct (Z.eq_dec a 0) as [->|Ha0].
    + cbn.
      destruct (Z.eq_dec k 0) as [->|Hk0]; [|lia].
      assert (b = 0) by (cbn in Hb; lia). subst b.
      cbn in Hz. contradiction.
    + apply Z.log2_lt_pow2; lia.
  - destruct (Z.eq_dec b 0) as [->|Hb0].
    + cbn.
      destruct (Z.eq_dec k 0) as [->|Hk0]; [|lia].
      assert (a = 0) by (cbn in Ha; lia). subst a.
      cbn in Hz. contradiction.
    + apply Z.log2_lt_pow2; lia.
Qed.

Lemma u256_lshift_range (x s : Z) : 0 <= u256_lshift x s < 2 ^ 256.
Proof.
  unfold u256_lshift, U256_MASK.
  change (2 ^ 256 - 1) with (Z.ones 256).
  rewrite Z.land_ones by lia. apply Z.mod_pos_bound. lia.
Qed.

Lemma decode_path_steps (b0 : byte) (rest : bytes) (t : bool) (p n : Z) :
  decode_path (b0 :: rest) = Returns (t, p, n) ->
  len rest <= 32
  /\ t = Z.testbit (byte_val b0) 5
  /\ (if Z.testbit (byte_val b0) 4
      then len rest * 2 < 32
           /\ p = Z.lor (Z.shiftr (int_from_bytes (ljust rest 32)) 4)
                    (u256_lshift (Z.land (byte_val b0) 0x0F) (256 - 4))
           /\ n = len rest * 2 + 1
      else p = int_from_bytes (ljust rest 32) /\ n = len rest * 2).
Proof.
  intros Hdec. unfold decode_path in Hdec.
  apply bind_returns in Hdec. destruct Hdec as (u1 & Hlen & Hdec).
  apply assert_returns in Hlen. apply Z.leb_le in Hlen.
  assert (Hrest : len rest <= 32).
  { unfold len in *. cbn [length] in Hlen. lia. }
  apply bind_returns in Hdec. destruct Hdec as (u2 & _ & Hdec).
  rewrite (padded_is_uint256 rest Hrest) in Hdec. cbn [bind] in Hdec.
  rewrite flag_terminating, flag_odd in Hdec.
  split; [exact Hrest|].
  destruct (Z.testbit (byte_val b0) 4).
  - apply bind_returns in Hdec. destruct Hdec as (u3 & Hodd & Hdec).
    apply assert_returns in Hodd. apply Z.ltb_lt in Hodd.
    injection Hdec as Ht Hp Hn. auto.
  - injection Hdec as Ht Hp Hn. auto.
Qed.

Lemma decode_path_wellformed (b0 : byte) (rest : bytes) (t : bool)
  (p n : Z) :
  decode_path (b0 :: rest) = Returns (t, p, n) ->
  t = Z.testbit (byte_val b0) 5
  /\ n = 2 * len rest + (if Z.testbit (byte_val b0) 4 then 1 else 0)
  /\ 0 <= n <= 64
  /\ (Z.testbit (byte_val b0) 4 = true -> n <= 31)
  /\ 0 <= p < 2 ^ 256.
Proof.
  intros Hdec. apply decode_path_steps in Hdec.
  destruct Hdec as (Hrest & Ht & Hcase).
  assert (Hnn : 0 <= len rest) by (unfold len; lia).
  pose proof (int_from_bytes_range (ljust rest 32)) as Hr.
  unfold len in Hr, Hrest. rewrite ljust_length in Hr by lia.
  change (256 ^ Z.of_nat 32) with (2 ^ 256) in Hr. fold (len rest) in Hrest.
  split; [exact Ht|].
  destruct (Z.testbit (byte_val b0) 4).
  - destruct Hcase as (Hodd & Hp & Hn).
    assert (Hrange : 0 <= p < 2 ^ 256).
    { subst p. apply lor_below_pow2; [lia| |apply u256_lshift_range].
      rewrite Z.shiftr_div_pow2 by lia. split.
      - apply Z.div_pos; lia.
      - apply Z.le_lt_trans with (int_from_bytes (ljust rest 32)); [|lia].
        apply Z.div_le_upper_bound; [lia|]. change (2 ^ 4) with 16. lia. }
    repeat split; lia.
  - destruct Hcase as (Hp & Hn).
    repeat split; try lia; intros; try discriminate.
Qed.

(** X1.  Whatever [decode_path] returns for a non-empty input is
    well-formed: the terminating flag is bit 5 of the first byte, the
    nibble count is twice the number of path bytes plus one for an odd
    path (bit 4), it lies between 0 and 64 (at most 31 for an odd path),
    and the path is a 256-bit word. *)
Theorem decode_path_result_bounds (b0 : byte) (rest : bytes) (t : bool)
  (p n : Z) :
  decode_path (b0 :: rest) = Returns (t, p, n) ->
  t = Z.testbit (byte_val b0) 5
  /\ n = 2 * len rest + (if Z.testbit (byte_val b0) 4 then 1 else 0)
  /\ 0 <= n <= 64
  /\ (Z.testbit (byte_val b0) 4 = true -> n <= 31)
  /\ 0 <= p < 2 ^ 256.
Proof. apply decode_path_wellformed. Qed.

Lemma decode_path_result_bounds_witness :
  exists p, decode_path [x3a; xbc] = Returns (true, p, 3) /\ 0 <= p < 2 ^ 256.
Proof.
  eexists. split; [vm_compute; reflexivity|].
  match goal with
  | |- 0 <= ?p < _ =>
      destruct (decode_path_result_bounds x3a [xbc] true p 3
                  ltac:(vm_compute; reflexivity))
        as (_ & _ & _ & _ & Hp)
  end.
  exact Hp.
Defined.

(** X2.  An odd-length path with sixteen or more path bytes (33 nibbles
    and up) is refused with an assertion error, although up to 63 nibbles
    fit the 33-byte bound checked first. *)
Theorem decode_path_refuses_long_odd_paths (b0 : byte) (rest : bytes) :
  Z.testbit (byte_val b0) 4 = true ->
  16 <= len rest ->
  decode_path (b0 :: rest) = Raises AssertionError.
Proof.
  intros Hodd Hlen. unfold decode_path.
  destruct (len (b0 :: rest) <=? 32 + 1) eqn:Hfit; [|reflexivity].
  cbn [assert bind].
  destruct (Z.land (Z.shiftr (Z.land (byte_val b0) 0xF0) 4) 12 =? 0);
    [|reflexivity].
  cbn [assert bind].
  assert (Hrest : len rest <= 32).
  { apply Z.leb_le in Hfit. unfold len in *. cbn [length] in Hfit. lia. }
  rewrite (padded_is_uint256 rest Hrest). cbn [bind].
  rewrite flag_odd, Hodd.
  replace (len rest * 2 <? 32) with false; [reflexivity|].
  symmetry. apply Z.ltb_ge. lia.
Qed.

Lemma decode_path_refuses_long_odd_paths_witness :
  decode_path (x31 :: repeat x11 16) = Raises AssertionError.
Proof.
  apply decode_path_refuses_long_odd_paths; [reflexivity|].
  vm_compute. discriminate.
Defined.

Lemma even_flags_accepted (b0 : byte) :
  Z.land (byte_val b0) 0xD0 = 0 ->
  (Z.land (Z.shiftr (Z.land (byte_val b0) 0xF0) 4) 12 =? 0) = true
  /\ Z.testbit (byte_val b0) 4 = false.
Proof.
  destruct b0; intros H;
    first [split; reflexivity | vm_compute in H; discriminate H].
Qed.

Lemma decode_path_full_exact (b0 : byte) (rest : bytes) :
  Z.land (byte_val b0) 0xD0 = 0 ->
  len rest = 32 ->
  decode_path (b0 :: rest)
  = Returns (Z.testbit (byte_val b0) 5, int_from_bytes rest, 64).
Proof.
  intros Hflags Hlen.
  destruct (even_flags_accepted b0 Hflags) as [Hres Heven].
  unfold decode_path.
  replace (len (b0 :: rest) <=? 32 + 1) with true
    by (symmetry; apply Z.leb_le; unfold len in *; cbn [length]; lia).
  cbn [assert bind]. rewrite Hres. cbn [assert bind].
  rewrite (padded_is_uint256 rest) by lia. cbn [bind].
  rewrite flag_terminating, flag_odd, Heven.
  unfold ljust. replace (32 - length rest)%nat with O
    by (unfold len in Hlen; lia).
  cbn [repeat]. rewrite app_nil_r, Hlen. reflexivity.
Qed.

(** X3.  A 64-nibble even path decodes exactly: a first byte with bits 7,
    6 and 4 clear followed by 32 path bytes gives the big-endian value of
    those bytes, 64 nibbles, and bit 5 as the terminating flag. *)
Theorem decode_path_full_path_exact (b0 : byte) (rest : bytes) :
  Z.land (byte_val b0) 0xD0 = 0 ->
  len rest = 32 ->
  decode_path (b0 :: rest)
  = Returns (Z.testbit (byte_val b0) 5, int_from_bytes rest, 64).
Proof. apply decode_path_full_exact. Qed.

Lemma decode_path_full_path_exact_witness :
  decode_path (x20 :: repeat xab 32)
  = Returns (true, int_from_bytes (repeat xab 32), 64).
Proof.
  apply (decode_path_full_path_exact x20 (repeat xab 32)); reflexivity.
Defined.

(** X4.  Every path [decode_path] returns for fewer than 64 nibbles has a
    non-zero lowest byte, 0x20 or 0x02: the bits below the path nibbles
    are filled with the padding byte of [ljust], not with zeros. *)
Theorem decode_path_pads_with_spaces (encoded_path : bytes)
  (terminating : bool) (p n : Z) :
  encoded_path <> [] ->
  decode_path encoded_path = Returns (terminating, p, n) ->
  n < 64 ->
  p mod 256 = 0x20 \/ p mod 256 = 0x02.
Proof.
  intros Hne Hdec Hn.
  apply (decoded_path_is_padded encoded_path terminating p n Hne Hdec Hn).
Qed.

Lemma decode_path_pads_with_spaces_witness :
  exists p,
    decode_path [x00; xab] = Returns (false, p, 2)
    /\ (p mod 256 = 0x20 \/ p mod 256 = 0x02).
Proof.
  eexists. split; [vm_compute; reflexivity|].
  apply (decode_path_pads_with_spaces [x00; xab] false _ 2);
    [discriminate | vm_compute; reflexivity | reflexivity].
Defined.

Lemma encode_path_even_fails (path path_len : Z) (terminating : bool) :
  path_len mod 2 = 0 ->
  path_len <> 0 ->
  encode_path path path_len terminating = Raises ValueError.
Proof.
  intros Heven Hnz. unfold encode_path.
  replace (path_len mod 2 =? 1) with false
    by (symmetry; apply Z.eqb_neq; lia).
  cbv iota beta zeta.
  apply Z.eqb_neq in Hnz.
  destruct terminating.
  - change (int_to_bytes (Z.lor 0 (Z.shiftl 2 4)) 1) with (Returns [x20]).
    cbn [bind]. rewrite Hnz. reflexivity.
  - change (int_to_bytes 0 1) with (Returns [x00]).
    cbn [bind]. rewrite Hnz. reflexivity.
Qed.

(** X5.  [encode_path] raises [ValueError] for every even non-zero length,
    whatever the path and the flag: the one-byte string it then passes to
    [int()] is 0x00 or 0x20, no decimal literal. *)
Theorem encode_path_even_raises (path path_len : Z) (terminating : bool) :
  path_len mod 2 = 0 ->
  path_len <> 0 ->
  encode_path path path_len terminating = Raises ValueError.
Proof. apply encode_path_even_fails. Qed.

Lemma encode_path_even_raises_witness :
  encode_path (int_from_bytes (repeat xab 32)) 64 true = Raises ValueError.
Proof.
  apply encode_path_even_raises; [reflexivity | discriminate].
Defined.

(** X6.  [common_nibble_prefix] compares first nibbles only: for
    non-negative lengths the returned length is [min(a_len, b_len)] when
    the most significant nibbles of [a] and [b] agree and 0 when they
    differ; the later nibbles have no influence. *)
Theorem common_nibble_prefix_first_nibble_only (a b a_len b_len : Z) :
  0 <= a_len -> 0 <= b_len ->
  (top_nibble a = top_nibble b ->
   snd (common_nibble_prefix a b a_len b_len) = Z.min a_len b_len)
  /\ (top_nibble a <> top_nibble b ->
      snd (common_nibble_prefix a b a_len b_len) = 0).
Proof.
  intros Ha Hb. rewrite common_nibble_prefix_length. split; intros Htop.
  - apply Z.eqb_eq in Htop. rewrite Htop, orb_true_r. reflexivity.
  - apply Z.eqb_neq in Htop. rewrite Htop, orb_false_r.
    destruct (Z.min a_len b_len <=? 0) eqn:Hmin; [|reflexivity].
    apply Z.leb_le in Hmin. lia.
Qed.

Lemma common_nibble_prefix_first_nibble_only_witness :
  snd (common_nibble_prefix (0x1234 * 2 ^ 240) (0x1999 * 2 ^ 240) 4 4) = 4
  /\ snd (common_nibble_prefix (0x1234 * 2 ^ 240) (0x2234 * 2 ^ 240) 4 4) = 0.
Proof.
  split.
  - apply (common_nibble_prefix_first_nibble_only
             (0x1234 * 2 ^ 240) (0x1999 * 2 ^ 240) 4 4);
      [lia | lia | vm_compute; reflexivity].
  - apply (common_nibble_prefix_first_nibble_only
             (0x1234 * 2 ^ 240) (0x2234 * 2 ^ 240) 4 4);
      [lia | lia | vm_compute; discriminate].
Defined.

(** X7.  [read_nibble] counts nibbles from the least significant end: its
    result is a nibble, stripping one nibble moves every index down by
    one, and index [i] is position [63 - i] in the most-significant-first
    order the lookup key uses. *)
Theorem read_nibble_strip_nibble (v i : Z) :
  0 <= i ->
  0 <= read_nibble v i < 16
  /\ read_nibble (strip_nibble v) i = read_nibble v (i + 1)
  /\ read_nibble v i = nibble_at v (63 - i).
Proof.
  intros Hi. unfold read_nibble, strip_nibble, nibble_at.
  repeat split.
  - change 0x0F with (Z.ones 4). rewrite Z.land_ones by lia.
    apply Z.mod_pos_bound. lia.
  - change 0x0F with (Z.ones 4). rewrite Z.land_ones by lia.
    apply Z.mod_pos_bound. lia.
  - rewrite Z.shiftr_shiftr by lia. do 2 f_equal. lia.
  - do 2 f_equal. lia.
Qed.

Lemma read_nibble_strip_nibble_witness :
  read_nibble (strip_nibble 0xabc) 0 = read_nibble 0xabc 1
  /\ read_nibble 0xabc 1 = 0xb.
Proof.
  destruct (read_nibble_strip_nibble 0xabc 0 ltac:(lia)) as (_ & Hs & _).
  split; [exact Hs | reflexivity].
Defined.

Lemma shiftr_nibble_out (d s : Z) :
  0 <= d < 16 -> 4 <= s -> Z.shiftr d s = 0.
Proof.
  intros Hd Hs. rewrite Z.shiftr_div_pow2 by lia.
  apply Z.div_small. split; [lia|].
  apply Z.lt_le_trans with (2 ^ 4); [cbn; lia|].
  apply Z.pow_le_mono_r; lia.
Qed.

Lemma le_bytes_zero (k : nat) : le_bytes 0 k = repeat x00 k.
Proof.
  induction k as [|k IH]; [reflexivity|].
  cbn [le_bytes repeat]. change (0 mod 256) with 0. change (0 / 256) with 0.
  rewrite IH. reflexivity.
Qed.

Lemma rev_repeat_id {A : Type} (x : A) (k : nat) :
  rev (repeat x k) = repeat x k.
Proof.
  induction k as [|k IH]; [reflexivity|].
  cbn [repeat rev]. rewrite IH. symmetry. apply repeat_cons.
Qed.

Lemma int_to_bytes_zero (k : Z) :
  0 <= k -> int_to_bytes 0 k = Returns (repeat x00 (Z.to_nat k)).
Proof.
  intros Hk. unfold int_to_bytes.
  replace (k <? 0) with false by (symmetry; apply Z.ltb_ge; lia).
  change (0 <? 0) with false.
  replace (256 ^ k <=? 0) with false
    by (symmetry; apply Z.leb_gt; apply Z.pow_pos_nonneg; lia).
  rewrite le_bytes_zero, rev_repeat_id. reflexivity.
Qed.

(** The sixteen values of a nibble. *)
Lemma nibble_cases (d : Z) :
  0 <= d < 16 ->
  d = 0 \/ d = 1 \/ d = 2 \/ d = 3 \/ d = 4 \/ d = 5 \/ d = 6 \/ d = 7 \/
  d = 8 \/ d = 9 \/ d = 10 \/ d = 11 \/ d = 12 \/ d = 13 \/ d = 14 \/ d = 15.
Proof. lia. Qed.

Lemma low_nibble_mod (path : Z) :
  Z.land path 0xf = path mod 16 /\ 0 <= path mod 16 < 16.
Proof.
  change 0xf with (Z.ones 4). rewrite Z.land_ones by lia.
  change (2 ^ 4) with 16. split; [reflexivity|].
  apply Z.mod_pos_bound. lia.
Qed.

Ltac eval_closed_in H :=
  repeat match type of H with
  | context [int_to_bytes ?f 1] =>
      let r := eval vm_compute in (int_to_bytes f 1) in
      change (int_to_bytes f 1) with r in H; cbn [bind] in H
  | context [int_of_bytes ?l] =>
      let r := eval vm_compute in (int_of_bytes l) in
      change (int_of_bytes l) with r in H; cbn [bind] in H
  end.

(** The result of [encode_path] for an odd length and a given lowest
    nibble. *)
Lemma encode_path_odd_shape (d n : Z) (t : bool) (b : bytes) :
  0 <= d < 16 ->
  n mod 2 = 1 ->
  0 <= n <= 64 ->
  encode_path d n t = Returns b ->
  b = byte_of_Z (16 + d + (if t then 32 else 0))
        :: repeat x00 (Z.to_nat (n / 2))
  /\ (n = 1 \/ (t = true /\ d <= 9)).
Proof.
  intros Hd Hodd Hn Henc.
  assert (Hhalf : (n - 1) / 2 = n / 2)
    by (Z.to_euclidean_division_equations; lia).
  assert (Hpos : 0 <= (n - 1) / 2)
    by (Z.to_euclidean_division_equations; lia).
  unfold encode_path in Henc.
  replace (n mod 2 =? 1) with true in Henc
    by (symmetry; apply Z.eqb_eq; exact Hodd).
  cbv beta iota zeta in Henc.
  destruct (n - 1 =? 0) eqn:Hone.
  - apply Z.eqb_eq in Hone. assert (n = 1) by lia. subst n.
    change (Z.to_nat (1 / 2)) with O. cbn [repeat].
    apply nibble_cases in Hd.
    destruct t;
      repeat (destruct Hd as [Hd|Hd]; [subst d; eval_closed_in Henc;
        injection Henc as <-; split; [reflexivity | left; reflexivity]|]);
      subst d; eval_closed_in Henc;
      injection Henc as <-; (split; [reflexivity | left; reflexivity]).
  - apply Z.eqb_neq in Hone.
    assert (Hshift : forall v, 0 <= v < 16 ->
              py_rshift v (256 - (n - 1) * 4) = Returns 0).
    { intros v Hv. unfold py_rshift.
      replace (256 - (n - 1) * 4 <? 0) with false
        by (symmetry; apply Z.ltb_ge; lia).
      rewrite shiftr_nibble_out by lia. reflexivity. }
    apply nibble_cases in Hd.
    destruct t;
      repeat (destruct Hd as [Hd|Hd]; [subst d; eval_closed_in Henc;
        first [discriminate Henc
              | rewrite Hshift in Henc by lia; cbn [bind] in Henc;
                rewrite int_to_bytes_zero in Henc by exact Hpos;
                rewrite Hhalf in Henc;
                cbn [bind app] in Henc; injection Henc as <-;
                split; [reflexivity | right; split; [reflexivity | lia]]]|]);
      subst d; eval_closed_in Henc; discriminate Henc.
Qed.

Lemma encode_path_shape (path n : Z) (t : bool) (b : bytes) :
  0 <= n <= 64 ->
  encode_path path n t = Returns b ->
  b = byte_of_Z ((if n mod 2 =? 1 then 16 + path mod 16 else 0)
                 + (if t then 32 else 0))
        :: repeat x00 (Z.to_nat (n / 2))
  /\ (n = 0 \/ n = 1 \/ (n mod 2 = 1 /\ t = true /\ path mod 16 <= 9)).
Proof.
  intros Hn Henc. rewrite encode_path_low_nibble in Henc.
  destruct (low_nibble_mod path) as [Hlow Hd].
  destruct (n mod 2 =? 1) eqn:Hodd.
  - apply Z.eqb_eq in Hodd. rewrite Hlow in Henc.
    destruct (encode_path_odd_shape _ _ _ _ Hd Hodd Hn Henc) as [Hb Hcase].
    split; [exact Hb|]. destruct Hcase as [H1|[Ht Hnine]]; auto.
  - apply Z.eqb_neq in Hodd.
    assert (Heven : n mod 2 = 0)
      by (Z.to_euclidean_division_equations; lia).
    destruct (Z.eq_dec n 0) as [->|Hnz].
    + destruct t; vm_compute in Henc; injection Henc as <-;
        (split; [reflexivity | left; reflexivity]).
    + rewrite (encode_path_even_fails 0 n t Heven Hnz) in Henc.
      discriminate.
Qed.

(** X8.  What [encode_path] can return for a length between 0 and 64: one
    first byte holding the flags (0x20 for terminating, 0x10 for odd) and,
    for an odd length, the lowest nibble of the path word, followed by
    zero bytes only.  It returns only for the lengths 0 and 1 and for odd
    terminating paths whose lowest nibble is at most 9; no nibble of the
    path other than the lowest one ever reaches the encoding. *)
Theorem encode_path_result_shape (path n : Z) (t : bool) (b : bytes) :
  0 <= n <= 64 ->
  encode_path path n t = Returns b ->
  b = byte_of_Z ((if n mod 2 =? 1 then 16 + path mod 16 else 0)
                 + (if t then 32 else 0))
        :: repeat x00 (Z.to_nat (n / 2))
  /\ (n = 0 \/ n = 1 \/ (n mod 2 = 1 /\ t = true /\ path mod 16 <= 9)).
Proof. apply encode_path_shape. Qed.

Lemma encode_path_result_shape_witness :
  encode_path (0xabc * 2 ^ 244 + 7) 3 true = Returns [x37; x00]
  /\ (0xabc * 2 ^ 244 + 7) mod 16 <= 9.
Proof.
  assert (Henc : encode_path (0xabc * 2 ^ 244 + 7) 3 true
                 = Returns [x37; x00]) by (vm_compute; reflexivity).
  split; [exact Henc|].
  destruct (encode_path_result_shape (0xabc * 2 ^ 244 + 7) 3 true
              [x37; x00] ltac:(lia) Henc) as [_ [H0|[H1|(_ & _ & Hnine)]]].
  - discriminate H0.
  - discriminate H1.
  - exact Hnine.
Defined.

Lemma flag_byte_bits (d : Z) (odd t : bool) :
  0 <= d < 16 ->
  let v := (if odd then 16 + d else 0) + (if t then 32 else 0) in
  0 <= v < 256 /\ Z.testbit v 5 = t /\ Z.testbit v 4 = odd.
Proof.
  intros Hd. apply nibble_cases in Hd.
  destruct odd, t;
    repeat (destruct Hd as [Hd|Hd];
            [subst d; cbv zeta; repeat split; try reflexivity; lia|]);
    subst d; cbv zeta; repeat split; try reflexivity; lia.
Qed.

(** X9.  The round trip loses only the path word.  Whenever
    [encode_path], for a length between 0 and 64, and [decode_path] on its
    result both return, the terminating flag and the nibble count come
    back unchanged; for the lengths 0 and 1 both calls do return. *)
Theorem path_round_trip_keeps_flag_and_length (path n : Z) (t : bool) :
  0 <= n <= 64 ->
  (forall b t' p' n',
     encode_path path n t = Returns b ->
     decode_path b = Returns (t', p', n') ->
     t' = t /\ n' = n)
  /\ (n <= 1 -> exists p', path_round_trip path n t = Returns (t, p', n)).
Proof.
  intros Hn. split.
  - intros b t' p' n' Henc Hdec.
    destruct (encode_path_shape _ _ _ _ Hn Henc) as [Hb _].
    subst b. apply decode_path_wellformed in Hdec.
    destruct Hdec as (Ht & Hlen & _).
    destruct (low_nibble_mod path) as [_ Hd].
    pose proof (flag_byte_bits (path mod 16) (n mod 2 =? 1) t Hd)
      as (Hv & Hbit5 & Hbit4).
    rewrite byte_val_of_Z in Ht, Hlen by exact Hv.
    rewrite Hbit5 in Ht. rewrite Hbit4 in Hlen.
    split; [exact Ht|].
    unfold len in Hlen. rewrite repeat_length, Z2Nat.id in Hlen
      by (apply Z.div_pos; lia).
    destruct (n mod 2 =? 1) eqn:Hodd.
    + apply Z.eqb_eq in Hodd. Z.to_euclidean_division_equations. lia.
    + apply Z.eqb_neq in Hodd. Z.to_euclidean_division_equations. lia.
  - intros Hle. unfold path_round_trip.
    rewrite encode_path_low_nibble.
    assert (Hcases : n = 0 \/ n = 1) by lia.
    destruct Hcases as [-> | ->].
    + change (0 mod 2 =? 1) with false. cbv iota.
      destruct t; eexists; vm_compute; reflexivity.
    + change (1 mod 2 =? 1) with true. cbv iota.
      destruct (low_nibble_mod path) as [Hlow Hd]. rewrite Hlow.
      apply nibble_cases in Hd.
      destruct t;
        repeat (destruct Hd as [Hd|Hd];
                [rewrite Hd; eexists; vm_compute; reflexivity|]);
        rewrite Hd; eexists; vm_compute; reflexivity.
Qed.

Lemma path_round_trip_keeps_flag_and_length_witness :
  exists p', path_round_trip (0xa * 2 ^ 252) 1 true = Returns (true, p', 1).
Proof.
  destruct (path_round_trip_keeps_flag_and_length (0xa * 2 ^ 252) 1 true
              ltac:(lia)) as [_ Hshort].
  apply Hshort. lia.
Defined.

(** * Further properties of the engine *)

Lemma branch_lookup_nibble_is_key_nibble (key d : Z) :
  0 <= d <= 63 ->
  Z.shiftr (u256_lshift key (d * 4)) (256 - 4) = nibble_at key d.
Proof.
  intros Hd. unfold u256_lshift, U256_MASK, nibble_at.
  change (2 ^ 256 - 1) with (Z.ones 256). change 0xF with (Z.ones 4).
  apply Z.bits_inj'. intros i Hi.
  rewrite Z.shiftr_spec, Z.land_spec, Z.shiftl_spec, Z.land_spec,
    Z.shiftr_spec, !Z.testbit_ones_nonneg by lia.
  replace (i + (256 - 4) - d * 4) with (i + (252 - 4 * d)) by lia.
  f_equal.
  destruct (i <? 4) eqn:Hlt.
  - apply Z.ltb_lt in Hlt. apply Z.ltb_lt. lia.
  - apply Z.ltb_ge in Hlt. apply Z.ltb_ge. lia.
Qed.

Lemma nibble_at_range (v i : Z) : 0 <= nibble_at v i < 16.
Proof.
  unfold nibble_at. change 0xF with (Z.ones 4).
  rewrite Z.land_ones by lia. apply Z.mod_pos_bound. lia.
Qed.

Lemma getitem_in_range {A : Type} (l : list A) (i : Z) :
  0 <= i < len l -> exists x, getitem l i = Returns x
                              /\ nth_error l (Z.to_nat i) = Some x.
Proof.
  intros Hi. unfold getitem, len in *.
  replace (i <? 0) with false by (symmetry; apply Z.ltb_ge; lia).
  destruct (nth_error l (Z.to_nat i)) as [x|] eqn:Hnth; [eauto|].
  apply nth_error_None in Hnth. lia.
Qed.

Lemma decode_path_count_range (encoded_path : bytes) (t : bool) (p n : Z) :
  decode_path encoded_path = Returns (t, p, n) -> 0 <= n <= 64.
Proof.
  destruct encoded_path as [|b0 rest]; intros Hdec.
  - cbn in Hdec. injection Hdec as _ _ <-. lia.
  - apply decode_path_wellformed in Hdec. tauto.
Qed.


Section EngineFurther.

Variable rlp_decode_list : bytes -> result (list bytes).
Variable rlp_encode_list : list bytes -> bytes.
Variable mpt_hash : bytes -> bytes.

Local Abbreviation reader := (reader_step_gen rlp_decode_list mpt_hash).
Local Abbreviation writer :=
  (write_step rlp_decode_list rlp_encode_list mpt_hash).
Local Abbreviation dispatch := (next_mpt_step rlp_decode_list mpt_hash).
Local Abbreviation write_start := (write_start_step mpt_hash).

(** A read step that has not arrived and whose node is in the store under
    its own hash, up to the decoded item list. *)
Ltac reader_expand Hlast Hne Hget Hauth Hdec :=
  unfold reader_step_gen; rewrite Hlast;
  cbn [bind mpt_current_root set_mpt_parent_node_step];
  rewrite Hne, Hget; cbn [bind];
  rewrite Hauth, bytes_eqb_refl; cbn [assert bind];
  rewrite Hdec; cbn [bind].

(** X10.  A read step below the key depth whose authenticated node decodes
    to the empty list ends the lookup: [fail_lookup = 1], an empty value,
    the zero reference as [current_root], mode [mode_on_finish], and an
    unchanged depth. *)
Theorem reader_empty_node_fails_lookup (trie : MPT) (trac : StepsTrace) (last : Step)
  (data : bytes) :
  trace_last trac = Returns last ->
  mpt_lookup_key_nibbles last <> mpt_lookup_nibble_depth last ->
  get_node trie (mpt_current_root last) = Returns data ->
  mpt_hash data = mpt_current_root last ->
  rlp_decode_list data = Returns [] ->
  exists next,
    reader trie trac = Returns (Some next)
    /\ mpt_fail_lookup next = 1
    /\ mpt_value next = []
    /\ mpt_current_root next = Bytes32_default
    /\ mpt_mode next = mpt_mode_on_finish last
    /\ mpt_lookup_nibble_depth next = mpt_lookup_nibble_depth last.
Proof.
  intros Hlast Hne Hget Hauth Hdec. apply Z.eqb_neq in Hne.
  reader_expand Hlast Hne Hget Hauth Hdec.
  eexists. split; [reflexivity|]. cbn. auto.
Qed.

(** X11.  A node that decodes to a list of any length other than 0, 2 and
    17 makes the read step return no step at all (Python's [None]); it
    neither raises nor sets a [fail_lookup] code. *)
Theorem reader_ignores_other_arities (trie : MPT) (trac : StepsTrace) (last : Step)
  (data : bytes) (items : list bytes) :
  trace_last trac = Returns last ->
  mpt_lookup_key_nibbles last <> mpt_lookup_nibble_depth last ->
  get_node trie (mpt_current_root last) = Returns data ->
  mpt_hash data = mpt_current_root last ->
  rlp_decode_list data = Returns items ->
  len items <> 0 -> len items <> 2 -> len items <> 17 ->
  reader trie trac = Returns None.
Proof.
  intros Hlast Hne Hget Hauth Hdec H0 H2 H17. apply Z.eqb_neq in Hne.
  reader_expand Hlast Hne Hget Hauth Hdec.
  apply Z.eqb_neq in H0, H2, H17. rewrite H0, H2, H17. reflexivity.
Qed.

(** X12.  Below the key depth and up to depth 31, a read step on a 17-item
    branch descends into the slot numbered by the next key nibble (the
    nibble at position [depth] of the key, most significant first): that
    item becomes [current_root], the depth grows by one, mode and
    [fail_lookup] stay. *)
Theorem reader_branch_follows_key_nibble (trie : MPT) (trac : StepsTrace) (last : Step)
  (data : bytes) (items : list bytes) :
  trace_last trac = Returns last ->
  mpt_lookup_key_nibbles last <> mpt_lookup_nibble_depth last ->
  get_node trie (mpt_current_root last) = Returns data ->
  mpt_hash data = mpt_current_root last ->
  rlp_decode_list data = Returns items ->
  len items = 17 ->
  0 <= mpt_lookup_nibble_depth last ->
  mpt_lookup_nibble_depth last + 1 <= 32 ->
  exists item next,
    nth_error items
      (Z.to_nat (nibble_at (mpt_lookup_key last)
                   (mpt_lookup_nibble_depth last))) = Some item
    /\ reader trie trac = Returns (Some next)
    /\ mpt_current_root next = item
    /\ mpt_lookup_nibble_depth next = mpt_lookup_nibble_depth last + 1
    /\ mpt_mode next = mpt_mode last
    /\ mpt_fail_lookup next = mpt_fail_lookup last.
Proof.
  intros Hlast Hne Hget Hauth Hdec Hlen Hd0 Hd32.
  pose proof (nibble_at_range (mpt_lookup_key last)
                (mpt_lookup_nibble_depth last)) as Hnib.
  destruct (getitem_in_range items
              (nibble_at (mpt_lookup_key last) (mpt_lookup_nibble_depth last))
              ltac:(lia)) as (item & Hitem & Hnth).
  apply Z.eqb_neq in Hne.
  reader_expand Hlast Hne Hget Hauth Hdec.
  rewrite Hlen.
  change (17 =? 0) with false. change (17 =? 2) with false.
  change (17 =? 17) with true. cbv iota.
  rewrite Z.eqb_sym, Hne.
  replace (mpt_lookup_nibble_depth last + 1 <=? 32) with true
    by (symmetry; apply Z.leb_le; lia).
  cbn [assert bind].
  rewrite branch_lookup_nibble_is_key_nibble by lia.
  rewrite Hitem. cbn [bind].
  exists item. eexists. split; [exact Hnth|].
  split; [reflexivity|]. cbn. auto.
Qed.

Ltac crack H :=
  repeat first
    [ discriminate H
    | match type of H with
      | context [bind ?c _] => destruct c eqn:?; cbn [bind assert] in H
      | context [if ?c then _ else _] =>
          destruct c eqn:?; cbn [bind assert] in H
      | context [match ?x with (_, _) => _ end] => destruct x; cbn [bind] in H
      end ].

Ltac frame_done :=
  repeat match goal with
  | Hd : decode_path _ = Returns _ |- _ => apply decode_path_count_range in Hd
  end;
  cbn;
  repeat match goal with
  | |- _ /\ _ => split
  end;
  try reflexivity; try lia;
  first [ left; split; reflexivity
        | right; split; [reflexivity | first [left; reflexivity | right; tauto]] ].

(** What every successor of a read step has in common with the step it
    comes from. *)
Lemma reader_frame (trie : MPT) (trac : StepsTrace) (last next : Step) :
  trace_last trac = Returns last ->
  reader trie trac = Returns (Some next) ->
  (mpt_lookup_key next = mpt_lookup_key last
   /\ mpt_lookup_key_nibbles next = mpt_lookup_key_nibbles last
   /\ mpt_write_root next = mpt_write_root last
   /\ mpt_mode_on_finish next = mpt_mode_on_finish last
   /\ return_to_step next = return_to_step last
   /\ mpt_global next = mpt_global last
   /\ mpt_address_target next = mpt_address_target last)
  /\ mpt_parent_node_step next = trace_length trac - 1
  /\ mpt_lookup_nibble_depth last <= mpt_lookup_nibble_depth next
     <= mpt_lookup_nibble_depth last + 64
  /\ ((mpt_mode next = mpt_mode last
       /\ mpt_fail_lookup next = mpt_fail_lookup last)
      \/ (mpt_mode next = mpt_mode_on_finish last
          /\ (mpt_fail_lookup next = mpt_fail_lookup last
              \/ In (mpt_fail_lookup next) [1; 2; 3; 4; 5; 6; 10]))).
Proof.
  intros Hlast Hrun. unfold reader_step_gen in Hrun.
  rewrite Hlast in Hrun.
  cbn [bind mpt_current_root set_mpt_parent_node_step] in Hrun.
  crack Hrun; injection Hrun as <-; frame_done.
Qed.

(** X13.  A read step never touches the lookup target: every successor
    keeps [lookup_key], [lookup_key_nibbles], [write_root],
    [mode_on_finish], [return_to_step] and the trie selection of the step
    it comes from, records the index of that step as its parent, and its
    depth is the old depth advanced by at most 64 nibbles. *)
Theorem reader_keeps_lookup_target (trie : MPT) (trac : StepsTrace)
  (last next : Step) :
  trace_last trac = Returns last ->
  reader trie trac = Returns (Some next) ->
  mpt_lookup_key next = mpt_lookup_key last
  /\ mpt_lookup_key_nibbles next = mpt_lookup_key_nibbles last
  /\ mpt_write_root next = mpt_write_root last
  /\ mpt_mode_on_finish next = mpt_mode_on_finish last
  /\ return_to_step next = return_to_step last
  /\ mpt_global next = mpt_global last
  /\ mpt_address_target next = mpt_address_target last
  /\ mpt_parent_node_step next = trace_length trac - 1
  /\ mpt_lookup_nibble_depth last <= mpt_lookup_nibble_depth next
     <= mpt_lookup_nibble_depth last + 64.
Proof.
  intros Hlast Hrun.
  destruct (reader_frame trie trac last next Hlast Hrun)
    as ((H1 & H2 & H3 & H4 & H5 & H6 & H7) & Hparent & Hdepth & _).
  repeat split; try assumption; lia.
Qed.

(** X14.  A read step either continues or finishes: its successor keeps
    the mode and [fail_lookup] of the step it comes from, or it has mode
    [mode_on_finish] and a [fail_lookup] that is unchanged or one of 1, 2,
    3, 4, 5, 6 and 10.  A failure code is never set without leaving the
    reading mode for [mode_on_finish]. *)
Theorem reader_continues_or_finishes (trie : MPT) (trac : StepsTrace)
  (last next : Step) :
  trace_last trac = Returns last ->
  reader trie trac = Returns (Some next) ->
  (mpt_mode next = mpt_mode last
   /\ mpt_fail_lookup next = mpt_fail_lookup last)
  \/ (mpt_mode next = mpt_mode_on_finish last
      /\ (mpt_fail_lookup next = mpt_fail_lookup last
          \/ In (mpt_fail_lookup next) [1; 2; 3; 4; 5; 6; 10])).
Proof.
  intros Hlast Hrun.
  destruct (reader_frame trie trac last next Hlast Hrun) as (_ & _ & _ & H).
  exact H.
Qed.

(** X15.  The leaf dispatch of the read engine, on what [decode_path]
    returns for the leaf path (a 256-bit word [p] and a length [n]): with
    [depth + n = lookup_key_nibbles] the step descends into the leaf value
    when the key shifted left by the nibbles already read equals [p] as a
    whole word, and sets [fail_lookup = 2] otherwise; a shorter leaf gives
    3 and a longer one 4, each failure with mode [mode_on_finish]. *)
Theorem reader_leaf_dispatch_on_decoded_word (trie : MPT)
  (trac : StepsTrace) (last : Step) (data encoded_path value : bytes)
  (p n : Z) :
  trace_last trac = Returns last ->
  mpt_lookup_key_nibbles last <> mpt_lookup_nibble_depth last ->
  get_node trie (mpt_current_root last) = Returns data ->
  mpt_hash data = mpt_current_root last ->
  rlp_decode_list data = Returns [encoded_path; value] ->
  encoded_path <> [] ->
  decode_path encoded_path = Returns (true, p, n) ->
  exists next,
    reader trie trac = Returns (Some next)
    /\ (mpt_lookup_nibble_depth last + n = mpt_lookup_key_nibbles last ->
        u256_lshift (mpt_lookup_key last) (mpt_lookup_nibble_depth last * 4)
        = p ->
        mpt_mode next = mpt_mode last
        /\ mpt_fail_lookup next = mpt_fail_lookup last
        /\ mpt_current_root next = value
        /\ mpt_lookup_nibble_depth next = mpt_lookup_nibble_depth last + n)
    /\ (mpt_lookup_nibble_depth last + n = mpt_lookup_key_nibbles last ->
        u256_lshift (mpt_lookup_key last) (mpt_lookup_nibble_depth last * 4)
        <> p ->
        mpt_fail_lookup next = 2
        /\ mpt_mode next = mpt_mode_on_finish last)
    /\ (mpt_lookup_nibble_depth last + n < mpt_lookup_key_nibbles last ->
        mpt_fail_lookup next = 3
        /\ mpt_mode next = mpt_mode_on_finish last)
    /\ (mpt_lookup_nibble_depth last + n > mpt_lookup_key_nibbles last ->
        mpt_fail_lookup next = 4
        /\ mpt_mode next = mpt_mode_on_finish last).
Proof.
  intros Hlast Hne Hget Hauth Hdec Hnonempty Hpath.
  apply (reader_leaf_dispatch rlp_decode_list mpt_hash trie trac last data
           encoded_path value p n); assumption.
Qed.

(** X16.  For a key of at most 64 nibbles a read step on an extension node
    never descends into the child: it ends the lookup with [fail_lookup]
    5 or 6 and mode [mode_on_finish], leaving [current_root] and the depth
    as they were, whatever the nibbles of the extension are. *)
Theorem reader_never_follows_extension (trie : MPT) (trac : StepsTrace)
  (last : Step) (data encoded_path child : bytes) (p n : Z) :
  trace_last trac = Returns last ->
  mpt_lookup_key_nibbles last <> mpt_lookup_nibble_depth last ->
  get_node trie (mpt_current_root last) = Returns data ->
  mpt_hash data = mpt_current_root last ->
  rlp_decode_list data = Returns [encoded_path; child] ->
  encoded_path <> [] ->
  decode_path encoded_path = Returns (false, p, n) ->
  0 <= mpt_lookup_nibble_depth last ->
  mpt_lookup_key_nibbles last <= 64 ->
  exists next,
    reader trie trac = Returns (Some next)
    /\ (mpt_fail_lookup next = 5 \/ mpt_fail_lookup next = 6)
    /\ mpt_mode next = mpt_mode_on_finish last
    /\ mpt_current_root next = mpt_current_root last
    /\ mpt_lookup_nibble_depth next = mpt_lookup_nibble_depth last.
Proof.
  intros.
  apply (extension_step_never_descends rlp_decode_list mpt_hash trie trac
           last data encoded_path child p n); assumption.
Qed.

(** X17.  The write-start step turns the value to write into a root
    reference: a value shorter than 32 bytes is kept inline, a longer one
    is replaced by its hash, so with a 32-byte hash the new
    [current_root] never exceeds 32 bytes; the mode becomes 3 (WRITING)
    and the value, write root and depth are carried over. *)
Theorem write_start_step_sets_root (trac : StepsTrace) (last : Step) :
  trace_last trac = Returns last ->
  (forall v, len (mpt_hash v) = 32) ->
  exists next,
    write_start trac = Returns (Some next)
    /\ mpt_mode next = 3
    /\ (len (mpt_value last) < 32 -> mpt_current_root next = mpt_value last)
    /\ (32 <= len (mpt_value last) ->
        mpt_current_root next = mpt_hash (mpt_value last))
    /\ len (mpt_current_root next) <= 32
    /\ mpt_value next = mpt_value last
    /\ mpt_write_root next = mpt_write_root last
    /\ mpt_lookup_nibble_depth next = mpt_lookup_nibble_depth last.
Proof.
  intros Hlast Hhash. unfold write_start_step. rewrite Hlast. cbn [bind].
  destruct (len (mpt_value last) >=? 32) eqn:Hlong;
    rewrite Z.geb_leb in Hlong;
    [apply Z.leb_le in Hlong | apply Z.leb_gt in Hlong];
    (eexists; split; [reflexivity|]; cbn;
     repeat split; try reflexivity; intros; try lia).
  rewrite Hhash. lia.
Qed.

(** X18.  The write step never changes the store, whatever the trace and
    the store are, and the only step it ever produces is the parent step
    with the [write_root] of the last step copied into it. *)
Theorem write_step_never_stores (trac : StepsTrace) (trie : MPT) :
  snd (writer trac trie) = trie
  /\ (forall next,
        fst (writer trac trie) = Returns (Some next) ->
        exists last parent,
          trace_last trac = Returns last
          /\ trace_by_index trac (mpt_parent_node_step last) = Returns parent
          /\ next = set_mpt_write_root (mpt_write_root last) parent).
Proof.
  unfold write_step, wbind, lift, trie_get_node, wret.
  destruct (trace_last trac) as [last|e];
    [|split; [reflexivity | discriminate]].
  destruct (trace_by_index trac (mpt_parent_node_step last))
    as [parent|e] eqn:Hparent;
    [|split; [reflexivity | discriminate]].
  destruct (get_node trie (mpt_current_root parent)) as [data|e];
    [|split; [reflexivity | discriminate]].
  destruct (assert (bytes_eqb (mpt_hash data) (mpt_current_root parent)));
    [|split; [reflexivity | discriminate]].
  destruct (rlp_decode_list data) as [items|e];
    [|split; [reflexivity | discriminate]].
  destruct (len items =? 0) eqn:Hlen; cbn [negb].
  - apply Z.eqb_eq in Hlen. rewrite Hlen.
    change (0 =? 2) with false. change (0 =? 17) with false. cbv iota.
    split; [reflexivity | discriminate].
  - split; [reflexivity|]. cbn [fst]. intros next Hnext.
    injection Hnext as <-. exists last, parent. auto.
Qed.

(** X19.  The dispatcher produces a step only for a last step in READING
    (1) or WRITE_START (2) mode.  In WRITING mode (3) it raises
    [NotImplementedError], so it never runs the write step, and for a mode
    outside 0..3 it returns no step. *)
Theorem dispatcher_steps_only_when_reading_or_starting (trac : StepsTrace)
  (last : Step) :
  trace_last trac = Returns last ->
  (mpt_mode last = 3 -> dispatch trac = Raises NotImplementedError)
  /\ (mpt_mode last < 0 \/ 3 < mpt_mode last -> dispatch trac = Returns None)
  /\ (forall next,
        dispatch trac = Returns (Some next) ->
        mpt_mode last = 1 \/ mpt_mode last = 2).
Proof.
  intros Hlast. unfold next_mpt_step. rewrite Hlast. cbn [bind].
  repeat split.
  - intros ->. reflexivity.
  - intros Hout.
    replace (mpt_mode last =? 0) with false by (symmetry; apply Z.eqb_neq; lia).
    replace (mpt_mode last =? 1) with false by (symmetry; apply Z.eqb_neq; lia).
    replace (mpt_mode last =? 2) with false by (symmetry; apply Z.eqb_neq; lia).
    replace (mpt_mode last =? 3) with false by (symmetry; apply Z.eqb_neq; lia).
    reflexivity.
  - intros next.
    destruct (mpt_mode last =? 0) eqn:H0; [cbn; discriminate|].
    destruct (mpt_mode last =? 1) eqn:H1;
      [apply Z.eqb_eq in H1; auto|].
    destruct (mpt_mode last =? 2) eqn:H2;
      [apply Z.eqb_eq in H2; auto|].
    destruct (mpt_mode last =? 3); discriminate.
Qed.




End EngineFurther.

(** ** Closed instances of the further engine properties *)

Lemma ex_mpt_hash_length (data : bytes) : len (ex_mpt_hash data) = 32.
Proof.
  unfold ex_mpt_hash, len. rewrite length_app, repeat_length. reflexivity.
Qed.

Lemma reader_empty_node_fails_lookup_witness :
  exists next,
    ex_reader (ex_store [[]])
      (ex_trace [ex_reading_step (ex_mpt_hash []) ex_key_abc 3 0])
    = Returns (Some next)
    /\ mpt_fail_lookup next = 1.
Proof.
  destruct (reader_empty_node_fails_lookup ex_rlp_decode_list ex_mpt_hash
              (ex_store [[]])
              (ex_trace [ex_reading_step (ex_mpt_hash []) ex_key_abc 3 0])
              (ex_reading_step (ex_mpt_hash []) ex_key_abc 3 0) []
              eq_refl ltac:(vm_compute; discriminate) eq_refl eq_refl eq_refl)
    as (next & Hrun & Hfail & _).
  exists next. split; assumption.
Defined.

Lemma reader_ignores_other_arities_witness :
  ex_reader (ex_store [ex_rlp_encode_list [[x01]]])
    (ex_trace [ex_reading_step (ex_mpt_hash (ex_rlp_encode_list [[x01]]))
                 ex_key_abc 3 0])
  = Returns None.
Proof.
  apply (reader_ignores_other_arities ex_rlp_decode_list ex_mpt_hash
           _ _ (ex_reading_step (ex_mpt_hash (ex_rlp_encode_list [[x01]]))
                  ex_key_abc 3 0)
           (ex_rlp_encode_list [[x01]]) [[x01]]);
    try reflexivity; vm_compute; discriminate.
Defined.

Lemma reader_branch_follows_key_nibble_witness :
  exists next,
    ex_reader (ex_store [ex_branch]) (ex_trace [ex_read_branch 31])
    = Returns (Some next)
    /\ mpt_current_root next = [x3b]
    /\ mpt_lookup_nibble_depth next = 32.
Proof.
  destruct (reader_branch_follows_key_nibble ex_rlp_decode_list ex_mpt_hash
              (ex_store [ex_branch]) (ex_trace [ex_read_branch 31])
              (ex_read_branch 31) ex_branch
              (map (fun b => [b])
                 [x30; x31; x32; x33; x34; x35; x36; x37;
                  x38; x39; x3a; x3b; x3c; x3d; x3e; x3f] ++ [[]])
              eq_refl ltac:(vm_compute; discriminate) eq_refl eq_refl
              ltac:(vm_compute; reflexivity) eq_refl
              ltac:(vm_compute; discriminate) ltac:(vm_compute; discriminate))
    as (item & next & Hitem & Hrun & Hroot & Hdepth & _).
  exists next. repeat split; try assumption.
  rewrite Hroot. vm_compute in Hitem. injection Hitem as <-. reflexivity.
Defined.

Lemma ex_branch_step_runs :
  exists next,
    ex_reader (ex_store [ex_branch]) (ex_trace [ex_read_branch 31])
    = Returns (Some next).
Proof. eexists. vm_compute. reflexivity. Qed.

Lemma reader_keeps_lookup_target_witness :
  exists next,
    ex_reader (ex_store [ex_branch]) (ex_trace [ex_read_branch 31])
    = Returns (Some next)
    /\ mpt_lookup_key next = ex_key64
    /\ mpt_lookup_key_nibbles next = 64.
Proof.
  destruct ex_branch_step_runs as (next & Hrun).
  exists next. split; [exact Hrun|].
  destruct (reader_keeps_lookup_target ex_rlp_decode_list ex_mpt_hash
              (ex_store [ex_branch]) (ex_trace [ex_read_branch 31])
              (ex_read_branch 31) next eq_refl Hrun)
    as (Hkey & Hnibbles & _).
  split; assumption.
Defined.

Lemma reader_continues_or_finishes_witness :
  exists next,
    ex_reader (ex_store [ex_branch]) (ex_trace [ex_read_branch 31])
    = Returns (Some next)
    /\ ((mpt_mode next = 1 /\ mpt_fail_lookup next = 0)
        \/ (mpt_mode next = 0
            /\ (mpt_fail_lookup next = 0
                \/ In (mpt_fail_lookup next) [1; 2; 3; 4; 5; 6; 10]))).
Proof.
  destruct ex_branch_step_runs as (next & Hrun).
  exists next. split; [exact Hrun|].
  apply (reader_continues_or_finishes ex_rlp_decode_list ex_mpt_hash
           (ex_store [ex_branch]) (ex_trace [ex_read_branch 31])
           (ex_read_branch 31) next eq_refl Hrun).
Defined.

Lemma reader_leaf_dispatch_on_decoded_word_witness :
  exists next,
    ex_reader (ex_store [ex_leaf64]) (ex_trace [ex_write_parent])
    = Returns (Some next)
    /\ mpt_current_root next = ex_old
    /\ mpt_lookup_nibble_depth next = 64.
Proof.
  destruct (reader_leaf_dispatch_on_decoded_word ex_rlp_decode_list
              ex_mpt_hash (ex_store [ex_leaf64]) (ex_trace [ex_write_parent])
              ex_write_parent ex_leaf64 (x20 :: repeat xab 32) ex_old
              ex_key64 64
              eq_refl ltac:(vm_compute; discriminate) eq_refl eq_refl
              ltac:(vm_compute; reflexivity) ltac:(discriminate)
              ltac:(vm_compute; reflexivity))
    as (next & Hrun & Hmatch & _).
  destruct Hmatch as (_ & _ & Hroot & Hdepth);
    try (vm_compute; reflexivity).
  exists next. repeat split; assumption.
Defined.

Lemma reader_never_follows_extension_witness :
  exists next,
    ex_reader (ex_store [ex_ext_ab]) (ex_trace [ex_read_ab12])
    = Returns (Some next)
    /\ (mpt_fail_lookup next = 5 \/ mpt_fail_lookup next = 6)
    /\ mpt_lookup_nibble_depth next = 0.
Proof.
  destruct (reader_never_follows_extension ex_rlp_decode_list ex_mpt_hash
              (ex_store [ex_ext_ab]) (ex_trace [ex_read_ab12]) ex_read_ab12
              ex_ext_ab [x00; xab] (repeat x11 32)
              0xab20202020202020202020202020202020202020202020202020202020202020
              2
              eq_refl ltac:(vm_compute; discriminate) eq_refl eq_refl
              ltac:(vm_compute; reflexivity) ltac:(discriminate)
              ltac:(vm_compute; reflexivity) ltac:(vm_compute; discriminate)
              ltac:(vm_compute; discriminate))
    as (next & Hrun & Hfail & _ & _ & Hdepth).
  exists next. repeat split; assumption.
Defined.

Lemma write_start_step_sets_root_witness :
  exists next,
    write_start_step ex_mpt_hash
      (ex_trace [set_mpt_value (repeat x61 40) ex_caller])
    = Returns (Some next)
    /\ mpt_mode next = 3
    /\ mpt_current_root next = ex_mpt_hash (repeat x61 40).
Proof.
  destruct (write_start_step_sets_root ex_mpt_hash
              (ex_trace [set_mpt_value (repeat x61 40) ex_caller])
              (set_mpt_value (repeat x61 40) ex_caller)
              eq_refl ex_mpt_hash_length)
    as (next & Hrun & Hmode & _ & Hlong & _).
  exists next. repeat split; try assumption.
  apply Hlong. vm_compute. discriminate.
Defined.

Lemma write_step_never_stores_witness :
  snd (ex_writer (ex_trace [ex_write_parent; ex_write_last])
         (ex_store [ex_leaf64]))
  = ex_store [ex_leaf64].
Proof.
  apply (write_step_never_stores ex_rlp_decode_list ex_rlp_encode_list
           ex_mpt_hash).
Defined.

Lemma dispatcher_steps_only_when_reading_or_starting_witness :
  ex_next_mpt_step (ex_trace [ex_caller; set_mpt_mode 3 ex_caller])
  = Raises NotImplementedError.
Proof.
  apply (dispatcher_steps_only_when_reading_or_starting ex_rlp_decode_list
           ex_mpt_hash (ex_trace [ex_caller; set_mpt_mode 3 ex_caller])
           (set_mpt_mode 3 ex_caller) eq_refl).
  reflexivity.
Defined.


(** * Properties of the containers of [step.py] *)

Lemma len_nonneg {A : Type} (l : list A) : 0 <= len l.
Proof. unfold len. lia. Qed.

Lemma len_app {A : Type} (l l' : list A) : len (l ++ l') = len l + len l'.
Proof. unfold len. rewrite length_app. lia. Qed.

Lemma list_set_spec {A : Type} (l : list A) (i : nat) (v : A) :
  (i < length l)%nat ->
  exists l',
    list_set l i v = Some l'
    /\ length l' = length l
    /\ forall j, nth_error l' j = if (j =? i)%nat then Some v
                                  else nth_error l j.
Proof.
  revert i. induction l as [|x l IH]; intros i Hi; cbn [length] in Hi.
  - lia.
  - destruct i as [|i].
    + exists (v :: l). cbn. repeat split. intros [|j]; reflexivity.
    + destruct (IH i ltac:(lia)) as (l' & Hset & Hlen & Hnth).
      exists (x :: l'). cbn [list_set]. rewrite Hset. cbn.
      repeat split; [lia|]. intros [|j]; cbn; [reflexivity | apply Hnth].
Qed.

Lemma List_get_in_range {A : Type} (l : list A) (i : Z) :
  0 <= i < len l -> exists x, List_get l i = Some x.
Proof.
  intros Hi. unfold List_get, len in *.
  replace ((0 <=? i) && (i <? Z.of_nat (length l))) with true
    by (symmetry; apply andb_true_iff; split;
        [apply Z.leb_le | apply Z.ltb_lt]; lia).
  destruct (nth_error l (Z.to_nat i)) as [x|] eqn:Hnth; [eauto|].
  apply nth_error_None in Hnth. lia.
Qed.

Lemma List_get_out_of_range {A : Type} (l : list A) (i : Z) :
  i < 0 \/ len l <= i -> List_get l i = None.
Proof.
  intros Hi. unfold List_get.
  destruct (0 <=? i) eqn:H0; [|reflexivity].
  destruct (i <? len l) eqn:H1; [|reflexivity].
  apply Z.leb_le in H0. apply Z.ltb_lt in H1. lia.
Qed.

Lemma List_set_spec {A : Type} (l : list A) (i : Z) (v : A) :
  0 <= i < len l ->
  exists l',
    List_set l i v = Some l'
    /\ len l' = len l
    /\ List_get l' i = Some v
    /\ forall j, j <> i -> List_get l' j = List_get l j.
Proof.
  intros Hi. unfold List_set, List_get, len in *.
  replace ((0 <=? i) && (i <? Z.of_nat (length l))) with true
    by (symmetry; apply andb_true_iff; split;
        [apply Z.leb_le | apply Z.ltb_lt]; lia).
  destruct (list_set_spec l (Z.to_nat i) v ltac:(lia))
    as (l' & Hset & Hlen & Hnth).
  exists l'. rewrite Hset, Hlen.
  replace ((0 <=? i) && (i <? Z.of_nat (length l))) with true
    by (symmetry; apply andb_true_iff; split;
        [apply Z.leb_le | apply Z.ltb_lt]; lia).
  repeat split.
  - rewrite Hnth, Nat.eqb_refl. reflexivity.
  - intros j Hj.
    destruct ((0 <=? j) && (j <? Z.of_nat (length l))) eqn:Hin;
      [|reflexivity].
    apply andb_true_iff in Hin. destruct Hin as [H0 _].
    apply Z.leb_le in H0. rewrite Hnth.
    replace (Z.to_nat j =? Z.to_nat i)%nat with false
      by (symmetry; apply Nat.eqb_neq; lia).
    reflexivity.
Qed.

Lemma List_get_ext {A : Type} (l l' : list A) :
  len l = len l' ->
  (forall j, 0 <= j < len l -> List_get l j = List_get l' j) ->
  l = l'.
Proof.
  intros Hlen Hget. apply nth_error_ext. intros n.
  destruct (Nat.ltb n (length l)) eqn:Hn.
  - apply Nat.ltb_lt in Hn.
    specialize (Hget (Z.of_nat n)). unfold List_get, len in *.
    rewrite <- Hlen in Hget.
    replace ((0 <=? Z.of_nat n) && (Z.of_nat n <? Z.of_nat (length l)))
      with true in Hget
      by (symmetry; apply andb_true_iff; split;
          [apply Z.leb_le | apply Z.ltb_lt]; lia).
    rewrite Nat2Z.id in Hget. apply Hget. lia.
  - apply Nat.ltb_ge in Hn.
    assert (Hn' : (length l' <= n)%nat) by (unfold len in Hlen; lia).
    apply nth_error_None in Hn, Hn'. congruence.
Qed.

Lemma List_get_last {A : Type} (l : list A) (v : A) :
  List_get (l ++ [v]) (len (l ++ [v]) - 1) = Some v.
Proof.
  unfold List_get. rewrite len_app. change (len [v]) with 1.
  pose proof (len_nonneg l).
  replace ((0 <=? len l + 1 - 1) && (len l + 1 - 1 <? len l + 1)) with true
    by (symmetry; apply andb_true_iff; split;
        [apply Z.leb_le | apply Z.ltb_lt]; lia).
  unfold len. replace (Z.to_nat (Z.of_nat (length l) + 1 - 1))
    with (length l) by lia.
  rewrite nth_error_app2 by lia. rewrite Nat.sub_diag. reflexivity.
Qed.

Lemma List_get_front {A : Type} (l : list A) (v : A) (i : Z) :
  i < len l -> List_get (l ++ [v]) i = List_get l i.
Proof.
  intros Hi. unfold List_get. rewrite len_app. change (len [v]) with 1.
  destruct (0 <=? i) eqn:H0; [|reflexivity]. apply Z.leb_le in H0.
  replace (i <? len l + 1) with true by (symmetry; apply Z.ltb_lt; lia).
  replace (i <? len l) with true by (symmetry; apply Z.ltb_lt; lia).
  cbn [andb]. apply nth_error_app1. unfold len in Hi. lia.
Qed.

Lemma List_pop_last {A : Type} (l : list A) (v : A) :
  List_pop (l ++ [v]) = Some l.
Proof.
  unfold List_pop. destruct (l ++ [v]) as [|x r] eqn:E.
  - destruct l; discriminate.
  - rewrite <- E, removelast_last. reflexivity.
Qed.








Lemma stack_swap_core (self : list bytes) (n : Z) :
  1 <= n <= len self ->
  exists swapped,
    Stack.swap self n = Some swapped
    /\ len swapped = len self
    /\ forall j,
         List_get swapped j
         = (if j =? len self - 1 then List_get self (len self - n)
            else if j =? len self - n then List_get self (len self - 1)
            else List_get self j).
Proof.
  intros Hn. unfold Stack.swap. cbv zeta.
  destruct (List_get_in_range self (len self - 1) ltac:(lia)) as (a & Ha).
  destruct (List_get_in_range self (len self - n) ltac:(lia)) as (b & Hb).
  rewrite Ha, Hb. cbn [obind].
  destruct (List_set_spec self (len self - n) a ltac:(lia))
    as (s1 & Hs1 & Hlen1 & Hsame1 & Hother1).
  rewrite Hs1. cbn [obind].
  destruct (List_set_spec s1 (len self - 1) b ltac:(lia))
    as (s2 & Hs2 & Hlen2 & Hsame2 & Hother2).
  exists s2. split; [exact Hs2|]. split; [lia|].
  intros j.
  destruct (j =? len self - 1) eqn:Htop.
  - apply Z.eqb_eq in Htop. subst j. congruence.
  - apply Z.eqb_neq in Htop. rewrite (Hother2 j Htop).
    destruct (j =? len self - n) eqn:Hnth.
    + apply Z.eqb_eq in Hnth. subst j. congruence.
    + apply Z.eqb_neq in Hnth. apply Hother1. exact Hnth.
Qed.

(** X23.  [swap(n)], for [1 <= n <= len], exchanges the top word with the
    [n]-th word from the top (counting the top as first) and leaves every
    other word and the length alone; doing it twice restores the stack,
    and [swap(1)] changes nothing. *)
Theorem stack_swap_exchanges (self : list bytes) (n : Z) :
  1 <= n <= len self ->
  exists swapped,
    Stack.swap self n = Some swapped
    /\ len swapped = len self
    /\ Stack.back_b32 swapped 0 = Stack.back_b32 self (n - 1)
    /\ Stack.back_b32 swapped (n - 1) = Stack.back_b32 self 0
    /\ (forall m, 0 <= m -> m <> 0 -> m <> n - 1 ->
          Stack.back_b32 swapped m = Stack.back_b32 self m)
    /\ Stack.swap swapped n = Some self
    /\ (n = 1 -> swapped = self).
Proof.
  intros Hn.
  destruct (stack_swap_core self n Hn) as (s' & Hswap & Hlen & Hget).
  exists s'. split; [exact Hswap|]. split; [exact Hlen|].
  unfold Stack.back_b32. cbv zeta. rewrite Hlen.
  replace (0 + 1 >? len self) with false
    by (symmetry; rewrite Z.gtb_ltb; apply Z.ltb_ge; lia).
  replace (n - 1 + 1 >? len self) with false
    by (symmetry; rewrite Z.gtb_ltb; apply Z.ltb_ge; lia).
  split.
  { rewrite Hget.
    replace (len self - 0 - 1 =? len self - 1) with true
      by (symmetry; apply Z.eqb_eq; lia).
    f_equal. lia. }
  split.
  { rewrite Hget.
    destruct (len self - (n - 1) - 1 =? len self - 1) eqn:Htop.
    - apply Z.eqb_eq in Htop. f_equal. lia.
    - replace (len self - (n - 1) - 1 =? len self - n) with true
        by (symmetry; apply Z.eqb_eq; lia).
      f_equal. lia. }
  split.
  { intros m Hm0 Hmz Hmn.
    destruct (m + 1 >? len self); [reflexivity|].
    rewrite Hget.
    replace (len self - m - 1 =? len self - 1) with false
      by (symmetry; apply Z.eqb_neq; lia).
    replace (len self - m - 1 =? len self - n) with false
      by (symmetry; apply Z.eqb_neq; lia).
    reflexivity. }
  assert (Hback : forall t,
            Stack.swap s' n = Some t -> len t = len s' ->
            (forall j,
               List_get t j
               = (if j =? len s' - 1 then List_get s' (len s' - n)
                  else if j =? len s' - n then List_get s' (len s' - 1)
                  else List_get s' j)) ->
            t = self).
  { intros t _ Hlent Hgett. apply List_get_ext; [lia|].
    intros j Hj. rewrite Hgett, !Hget, Hlen.
    destruct (j =? len self - 1) eqn:Htop.
    - apply Z.eqb_eq in Htop. subst j.
      destruct (len self - n =? len self - 1) eqn:Hone.
      + apply Z.eqb_eq in Hone. f_equal. lia.
      + rewrite Z.eqb_refl. reflexivity.
    - destruct (j =? len self - n) eqn:Hnth.
      + apply Z.eqb_eq in Hnth. subst j.
        rewrite Z.eqb_refl. reflexivity.
      + reflexivity. }
  split.
  - destruct (stack_swap_core s' n ltac:(lia)) as (t & Hswap2 & Hlent & Hgett).
    rewrite Hswap2. f_equal. apply Hback; assumption.
  - intros ->. apply List_get_ext; [exact Hlen|].
    intros j Hj. rewrite Hget.
    destruct (j =? len self - 1) eqn:Htop; [|reflexivity].
    apply Z.eqb_eq in Htop. subst j. reflexivity.
Qed.

Lemma stack_swap_exchanges_witness :
  exists swapped,
    Stack.swap [ex_old; ex_hello; ex_new] 3 = Some swapped
    /\ Stack.back_b32 swapped 0 = Some ex_old
    /\ Stack.swap swapped 3 = Some [ex_old; ex_hello; ex_new].
Proof.
  destruct (stack_swap_exchanges [ex_old; ex_hello; ex_new] 3
              ltac:(vm_compute; split; discriminate))
    as (swapped & Hswap & _ & Htop & _ & _ & Hagain & _).
  exists swapped. repeat split; assumption.
Defined.

(** X24.  [dup(n)], for [1 <= n <= len] on a stack that is not full,
    pushes a copy of the [n]-th word from the top: a following pop returns
    that word and the original stack.  For [n <= 0] it raises, the index
    lying at or past the end. *)
Theorem stack_dup_copies (self : list bytes) (n : Z) :
  (1 <= n <= len self -> len self < 1024 ->
   exists v,
     Stack.back_b32 self (n - 1) = Some v
     /\ Stack.dup self n = Some (self ++ [v])
     /\ (duplicated <-- Stack.dup self n ;; Stack.pop_b32 duplicated)
        = Some (v, self))
  /\ (n <= 0 -> Stack.dup self n = None).
Proof.
  split.
  - intros Hn Hroom.
    destruct (List_get_in_range self (len self - n) ltac:(lia)) as (v & Hv).
    exists v. unfold Stack.back_b32, Stack.dup, Stack.pop_b32. cbv zeta.
    replace (n - 1 + 1 >? len self) with false
      by (symmetry; rewrite Z.gtb_ltb; apply Z.ltb_ge; lia).
    replace (len self - (n - 1) - 1) with (len self - n) by lia.
    rewrite Hv. cbn [obind]. unfold List_append, Stack.limit.
    apply Z.ltb_lt in Hroom. rewrite Hroom. cbn [obind].
    rewrite List_get_last. cbn [obind]. rewrite List_pop_last. auto.
  - intros Hout. unfold Stack.dup.
    rewrite List_get_out_of_range by lia. reflexivity.
Qed.

Lemma stack_dup_copies_witness :
  Stack.dup [ex_old; ex_new] 2 = Some [ex_old; ex_new; ex_old].
Proof.
  destruct (stack_dup_copies [ex_old; ex_new] 2) as [Hdup _].
  destruct (Hdup ltac:(vm_compute; split; discriminate) eq_refl)
    as (v & Hv & Hrun & _).
  vm_compute in Hv. injection Hv as <-. exact Hrun.
Defined.



Lemma List_slice_window {A : Type} (front window back : list A) :
  List_slice (front ++ window ++ back) (len front) (len front + len window)
  = Some window.
Proof.
  unfold List_slice. pose proof (len_nonneg front). pose proof (len_nonneg window).
  destruct (len front + len window <=? len front) eqn:Hempty.
  - apply Z.leb_le in Hempty. assert (Hw : len window = 0) by lia.
    destruct window; [reflexivity | unfold len in Hw; cbn in Hw; lia].
  - rewrite !len_app. pose proof (len_nonneg back).
    replace ((0 <=? len front)
             && (len front + len window <=? len front + (len window + len back)))
      with true
      by (symmetry; apply andb_true_iff; split; apply Z.leb_le; lia).
    f_equal. unfold len.
    replace (Z.to_nat (Z.of_nat (length front) + Z.of_nat (length window)
                       - Z.of_nat (length front)))
      with (length window) by lia.
    rewrite Nat2Z.id, skipn_app, skipn_all, Nat.sub_diag. cbn [skipn app].
    rewrite firstn_app, firstn_all, Nat.sub_diag. cbn [firstn].
    apply app_nil_r.
Qed.

Lemma split_at {A : Type} (l : list A) (a b : Z) :
  0 <= a <= b -> b <= len l ->
  exists front window back,
    l = front ++ window ++ back
    /\ len front = a /\ len window = b - a
    /\ front = firstn (Z.to_nat a) l /\ back = skipn (Z.to_nat b) l.
Proof.
  intros Ha Hb. unfold len in *.
  exists (firstn (Z.to_nat a) l),
         (firstn (Z.to_nat (b - a)) (skipn (Z.to_nat a) l)),
         (skipn (Z.to_nat b) l).
  repeat split.
  - replace (Z.to_nat b) with (Z.to_nat (b - a) + Z.to_nat a)%nat by lia.
    rewrite <- skipn_skipn.
    rewrite (firstn_skipn (Z.to_nat (b - a)) (skipn (Z.to_nat a) l)).
    symmetry. apply firstn_skipn.
  - rewrite length_firstn. lia.
  - rewrite length_firstn, length_skipn. lia.
Qed.

Lemma window_in_prefix {A : Type} (front rest : list A) (n k : nat) :
  (n + k <= length front)%nat ->
  firstn k (skipn n (front ++ rest)) = firstn k (skipn n front).
Proof.
  intros H. rewrite skipn_app, firstn_app, length_skipn.
  replace (k - (length front - n))%nat with O by lia.
  cbn [firstn]. apply app_nil_r.
Qed.

Lemma skipn_past_prefix {A : Type} (p q back : list A) (n : nat) :
  length p = length q -> (length p <= n)%nat ->
  skipn n (p ++ back) = skipn n (q ++ back).
Proof.
  intros Hlen Hn. rewrite !skipn_app.
  rewrite (skipn_all2 p), (skipn_all2 q) by lia.
  rewrite Hlen. reflexivity.
Qed.

(** X26.  Memory read-after-write.  [set_32_bytes(offset, val)] raises
    when the 32-byte window does not lie inside the memory; otherwise it
    keeps the length, [get_ptr_32_bytes(offset)] then returns [val], and a
    32-byte window that does not overlap the written one reads as before.
    A read at or past the end returns 32 zero bytes. *)
Theorem memory_set_then_get (self : bytes) (offset : Z) (val : bytes) :
  0 <= offset ->
  len val = 32 ->
  (len self < offset + 32 -> Memory.set_32_bytes self offset val = None)
  /\ (offset + 32 <= len self ->
      exists written,
        Memory.set_32_bytes self offset val = Some written
        /\ len written = len self
        /\ Memory.get_ptr_32_bytes written offset = Some val
        /\ (forall other,
              0 <= other ->
              other + 32 <= offset \/ offset + 32 <= other ->
              Memory.get_ptr_32_bytes written other
              = Memory.get_ptr_32_bytes self other))
  /\ (len self <= offset ->
      Memory.get_ptr_32_bytes self offset = Some Bytes32_default).
Proof.
  intros Hoff Hval. split; [|split].
  - intros Hshort. unfold Memory.set_32_bytes.
    replace (offset + 32 >? len self) with true
      by (symmetry; rewrite Z.gtb_ltb; apply Z.ltb_lt; lia).
    reflexivity.
  - intros Hin.
    destruct (split_at self offset (offset + 32) ltac:(lia) Hin)
      as (front & old & back & Hself & Hfront & Hold & Hfirst & Hskip).
    exists (front ++ val ++ back).
    assert (Hset : Memory.set_32_bytes self offset val
                   = Some (front ++ val ++ back)).
    { unfold Memory.set_32_bytes, List_set_slice.
      replace (offset + 32 >? len self) with false
        by (symmetry; rewrite Z.gtb_ltb; apply Z.ltb_ge; lia).
      replace ((0 <=? offset) && (offset <=? offset + 32)
               && (offset + 32 <=? len self)
               && (len val =? offset + 32 - offset)) with true.
      - rewrite <- Hfirst, <- Hskip. reflexivity.
      - symmetry. repeat (apply andb_true_iff; split);
          try (apply Z.leb_le; lia). apply Z.eqb_eq. lia. }
    assert (Hlen : len (front ++ val ++ back) = len self).
    { rewrite Hself, !len_app. lia. }
    split; [exact Hset|]. split; [exact Hlen|]. split.
    + unfold Memory.get_ptr_32_bytes. rewrite Hlen.
      replace (len self >? offset) with true
        by (symmetry; rewrite Z.gtb_ltb; apply Z.ltb_lt; lia).
      rewrite <- Hfront, <- Hval, List_slice_window. cbn [obind].
      unfold ByteVector. rewrite Z.eqb_refl. reflexivity.
    + intros other Hother Hdisjoint.
      unfold Memory.get_ptr_32_bytes. rewrite Hlen.
      destruct (len self >? other) eqn:Hinside; [|reflexivity].
      f_equal. unfold List_slice. rewrite Hlen.
      destruct (other + 32 <=? other); [reflexivity|].
      destruct ((0 <=? other) && (other + 32 <=? len self)) eqn:Hfit;
        [|reflexivity].
      apply andb_true_iff in Hfit. destruct Hfit as [_ Hfit].
      apply Z.leb_le in Hfit. f_equal.
      replace (Z.to_nat (other + 32 - other)) with 32%nat by lia.
      rewrite Hself. unfold len in *.
      destruct Hdisjoint as [Hbefore|Hafter].
      * rewrite !(window_in_prefix front) by lia. reflexivity.
      * rewrite (app_assoc front val), (app_assoc front old).
        rewrite (skipn_past_prefix (front ++ val) (front ++ old));
          [reflexivity | rewrite !length_app; lia | rewrite length_app; lia].
  - intros Hpast. unfold Memory.get_ptr_32_bytes.
    replace (len self >? offset) with false
      by (symmetry; rewrite Z.gtb_ltb; apply Z.ltb_ge; lia).
    reflexivity.
Qed.

Lemma memory_set_then_get_witness :
  exists written,
    Memory.set_32_bytes (repeat x00 64) 16 (repeat xab 32) = Some written
    /\ Memory.get_ptr_32_bytes written 16 = Some (repeat xab 32).
Proof.
  destruct (memory_set_then_get (repeat x00 64) 16 (repeat xab 32)
              ltac:(lia) eq_refl) as (_ & Hin & _).
  destruct (Hin ltac:(vm_compute; discriminate))
    as (written & Hset & _ & Hget & _).
  exists written. split; assumption.
Defined.

Lemma append_zeros_fits (count : nat) (self : bytes) :
  len self + Z.of_nat count <= Memory.limit ->
  Memory.append_zeros count self = Some (self ++ repeat x00 count).
Proof.
  revert self. induction count as [|count IH]; intros self Hfit.
  - cbn. rewrite app_nil_r. reflexivity.
  - cbn [Memory.append_zeros]. unfold List_append.
    replace (len self <? Memory.limit) with true
      by (symmetry; apply Z.ltb_lt; lia).
    cbn [obind]. rewrite IH by (rewrite len_app; change (len [x00]) with 1; lia).
    rewrite <- app_assoc. reflexivity.
Qed.

Lemma append_zeros_overflows (count : nat) (self : bytes) :
  len self <= Memory.limit ->
  Memory.limit < len self + Z.of_nat count ->
  Memory.append_zeros count self = None.
Proof.
  revert self. induction count as [|count IH]; intros self Hle Hover.
  - lia.
  - cbn [Memory.append_zeros]. unfold List_append.
    destruct (len self <? Memory.limit) eqn:Hroom; [|reflexivity].
    apply Z.ltb_lt in Hroom. cbn [obind].
    apply IH; rewrite len_app; change (len [x00]) with 1; lia.
Qed.

(** X27.  [append_zero_32_bytes] grows the memory by exactly 32 zero
    bytes when they fit under the limit of 64 MiB, keeping what was there,
    and reading the new window gives 32 zero bytes; when they do not fit
    the call raises. *)
Theorem memory_append_zero_32_bytes (self : bytes) :
  (len self + 32 <= Memory.limit ->
   Memory.append_zero_32_bytes self = Some (self ++ repeat x00 32)
   /\ Memory.get_ptr_32_bytes (self ++ repeat x00 32) (len self)
      = Some Bytes32_default)
  /\ (Memory.limit < len self + 32 -> Memory.append_zero_32_bytes self = None).
Proof.
  unfold Memory.append_zero_32_bytes. split.
  - intros Hfit. split; [apply append_zeros_fits; exact Hfit|].
    unfold Memory.get_ptr_32_bytes. rewrite len_app.
    change (len (repeat x00 32)) with 32.
    replace (len self + 32 >? len self) with true
      by (symmetry; rewrite Z.gtb_ltb; apply Z.ltb_lt; lia).
    pose proof (List_slice_window self (repeat x00 32) []) as Hwin.
    rewrite app_nil_r in Hwin. change (len (repeat x00 32)) with 32 in Hwin.
    rewrite Hwin. reflexivity.
  - intros Hover.
    destruct (Z_le_gt_dec (len self) Memory.limit) as [Hle|Hgt].
    + apply append_zeros_overflows; assumption.
    + cbn [Memory.append_zeros]. unfold List_append.
      replace (len self <? Memory.limit) with false
        by (symmetry; apply Z.ltb_ge; lia).
      reflexivity.
Qed.

Lemma memory_append_zero_32_bytes_witness :
  Memory.append_zero_32_bytes [xab] = Some ([xab] ++ repeat x00 32).
Proof.
  apply (memory_append_zero_32_bytes [xab]). vm_compute. discriminate.
Defined.

(** X28.  [get_data_b32(start)] returns 32 zero bytes for a start past the
    end of the input; for a start with fewer than 32 bytes left it returns
    those bytes followed by 0x20 bytes (the default fill of [ljust]) up to
    32; with exactly 32 bytes left it returns them. *)
Theorem input_get_data_b32_padding (self : bytes) (start : Z) :
  0 <= start ->
  (len self < start -> Input.get_data_b32 self start = Some Bytes32_default)
  /\ (start <= len self -> len self < start + 32 ->
      Input.get_data_b32 self start
      = Some (skipn (Z.to_nat start) self
              ++ repeat x20 (Z.to_nat (start + 32 - len self))))
  /\ (len self = start + 32 ->
      Input.get_data_b32 self start = Some (skipn (Z.to_nat start) self)).
Proof.
  intros Hstart. unfold Input.get_data_b32. cbv zeta.
  assert (Hrest : start <= len self ->
            exists rest,
              List_slice self start (len self) = Some rest
              /\ rest = skipn (Z.to_nat start) self
              /\ len rest = len self - start).
  { intros Hin. exists (skipn (Z.to_nat start) self).
    assert (Hlen : len (skipn (Z.to_nat start) self) = len self - start)
      by (unfold len in *; rewrite length_skipn; lia).
    repeat split; [|exact Hlen]. unfold List_slice.
    destruct (len self <=? start) eqn:Hempty.
    - apply Z.leb_le in Hempty. f_equal. symmetry.
      apply skipn_all2. unfold len in *. lia.
    - replace ((0 <=? start) && (len self <=? len self)) with true
        by (symmetry; apply andb_true_iff; split; apply Z.leb_le; lia).
      f_equal. apply firstn_all2. unfold len in *.
      rewrite length_skipn. lia. }
  split; [|split].
  - intros Hpast.
    replace (start >? len self) with true
      by (symmetry; rewrite Z.gtb_ltb; apply Z.ltb_lt; lia).
    reflexivity.
  - intros Hin Hshort. destruct (Hrest Hin) as (rest & Hslice & Heq & Hlen).
    replace (start >? len self) with false
      by (symmetry; rewrite Z.gtb_ltb; apply Z.ltb_ge; lia).
    replace (start + 32 >? len self) with true
      by (symmetry; rewrite Z.gtb_ltb; apply Z.ltb_lt; lia).
    rewrite Hslice. cbn [obind]. unfold ByteVector, ljust.
    replace (32 - length rest)%nat with (Z.to_nat (start + 32 - len self))
      by (unfold len in *; lia).
    replace (len (rest ++ repeat x20 (Z.to_nat (start + 32 - len self))) =? 32)
      with true
      by (symmetry; apply Z.eqb_eq; rewrite len_app; unfold len in *;
          rewrite repeat_length; lia).
    rewrite Heq. reflexivity.
  - intros Hexact. destruct (Hrest ltac:(lia)) as (rest & Hslice & Heq & Hlen).
    replace (start >? len self) with false
      by (symmetry; rewrite Z.gtb_ltb; apply Z.ltb_ge; lia).
    replace (start + 32 >? len self) with false
      by (symmetry; rewrite Z.gtb_ltb; apply Z.ltb_ge; lia).
    rewrite Hslice. cbn [obind]. unfold ByteVector.
    replace (len rest =? 32) with true by (symmetry; apply Z.eqb_eq; lia).
    rewrite Heq. reflexivity.
Qed.

Lemma input_get_data_b32_padding_witness :
  Input.get_data_b32 [x01; x02; x03] 1 = Some ([x02; x03] ++ repeat x20 30).
Proof.
  destruct (input_get_data_b32_padding [x01; x02; x03] 1 ltac:(lia))
    as (_ & Hshort & _).
  apply Hshort; vm_compute; [discriminate | reflexivity].
Defined.

(** X29.  [Address.to_b32] pads a 20-byte address in front with twelve
    0x20 bytes (the default fill of [rjust]), and [Address.from_b32] keeps
    the first twenty bytes of its argument: [from_b32(to_b32(a))] is the
    twelve padding bytes followed by the first eight bytes of [a]. *)
Theorem address_to_b32_from_b32 (a : bytes) :
  len a = 20 ->
  Address.to_b32 a = Some (repeat x20 12 ++ a)
  /\ (v <-- Address.to_b32 a ;; Address.from_b32 v)
     = Some (repeat x20 12 ++ firstn 8 a).
Proof.
  intros Hlen. unfold Address.to_b32, Address.from_b32, rjust, ByteVector.
  assert (Hnat : length a = 20%nat) by (unfold len in Hlen; lia).
  rewrite Hnat. change (32 - 20)%nat with 12%nat.
  replace (len (repeat x20 12 ++ a) =? 32) with true
    by (symmetry; apply Z.eqb_eq; rewrite len_app, Hlen; reflexivity).
  split; [reflexivity|]. cbn [obind].
  rewrite firstn_app, repeat_length.
  rewrite (firstn_all2 (repeat x20 12)) by (rewrite repeat_length; lia).
  change (20 - 12)%nat with 8%nat.
  replace (len (repeat x20 12 ++ firstn 8 a) =? 20) with true; [reflexivity|].
  symmetry. apply Z.eqb_eq. rewrite len_app. unfold len.
  rewrite repeat_length, length_firstn, Hnat. reflexivity.
Qed.

Lemma address_to_b32_from_b32_witness :
  (v <-- Address.to_b32 (repeat xab 20) ;; Address.from_b32 v)
  = Some (repeat x20 12 ++ repeat xab 8).
Proof.
  apply (address_to_b32_from_b32 (repeat xab 20)). reflexivity.
Defined.

(** X30.  Gas accounting of a contract scope with a well-formed gas
    counter: [use_gas(delta)] succeeds exactly when [delta] does not
    exceed the gas, and then takes [delta] off; otherwise it reports false
    and leaves the gas alone.  The gas never grows and never goes below
    zero, and [return_gas(delta)] after a successful [use_gas(delta)]
    restores the counter. *)
Theorem gas_use_then_return (gas delta : Z) :
  0 <= gas <= ContractScope.UINT64_MAX ->
  0 <= delta ->
  (delta <= gas ->
   ContractScope.use_gas gas delta = (true, gas - delta)
   /\ ContractScope.return_gas (gas - delta) delta = Some gas)
  /\ (gas < delta -> ContractScope.use_gas gas delta = (false, gas))
  /\ 0 <= snd (ContractScope.use_gas gas delta) <= gas.
Proof.
  intros Hgas Hdelta.
  unfold ContractScope.use_gas, ContractScope.return_gas. cbv zeta.
  split; [|split].
  - intros Hle.
    replace (delta >? gas) with false
      by (symmetry; rewrite Z.gtb_ltb; apply Z.ltb_ge; lia).
    replace (gas - delta + delta) with gas by lia.
    replace (gas <=? ContractScope.UINT64_MAX) with true
      by (symmetry; apply Z.leb_le; lia).
    auto.
  - intros Hlt.
    replace (delta >? gas) with true
      by (symmetry; rewrite Z.gtb_ltb; apply Z.ltb_lt; lia).
    reflexivity.
  - destruct (delta >? gas) eqn:Hcmp; cbn [snd]; [lia|].
    rewrite Z.gtb_ltb in Hcmp. apply Z.ltb_ge in Hcmp. lia.
Qed.

Lemma gas_use_then_return_witness :
  ContractScope.use_gas 100 30 = (true, 70)
  /\ ContractScope.return_gas 70 30 = Some 100.
Proof.
  destruct (gas_use_then_return 100 30
              ltac:(vm_compute; split; discriminate) ltac:(lia))
    as (Hok & _).
  apply Hok. lia.
Defined.
